(** * Denial constraints to SQL: the parser's checks and the transpiler

    A shallow embedding of [types.ts], [parser.ts], [transpiler.ts] and
    [index.ts], and the properties of the specification proved about it.

    Strings.  A JavaScript string is a sequence of UTF-16 code units and
    [Array.prototype.sort] without a comparator orders strings by code
    unit.  Every text this program builds or matches lies in the Latin-1
    range (the grammar's alphabet is ASCII, the negation sign is U+00AC),
    so a string is a [string] whose characters are the code units 0..255:
    ["172"%char] is the negation sign and ["194"%char] is the letter
    A-circumflex (U+00C2).  [String.leb] compares by code unit. *)

From Stdlib Require Import Strings.Ascii.
From Stdlib Require Strings.String.
From stdpp Require Import base tactics option list strings sorting gmap.

(** ** Exceptions and results *)

(** What the code throws: [new Error(message)] in [validate], the
    [Error] of [parse] whose message is the one Ohm reports for the failed
    match, and the engine's [TypeError] on reading a property of
    [undefined]. *)
Inductive exn : Type :=
| Error (message : string)
| ParseError
| TypeError.

(** A call returns a value or throws. *)
Inductive result (A : Type) : Type :=
| Return (a : A)
| Throw (e : exn).
Arguments Return {A} a.
Arguments Throw {A} e.

Global Instance result_bind : MBind result := fun A B k r =>
  match r with
  | Return a => k a
  | Throw e => Throw e
  end.

(** ** types.ts *)

Inductive ComparisonOperator : Type :=
| OpEq   (* "==" *)
| OpNeq  (* "<>" *)
| OpLe   (* "<=" *)
| OpGe   (* ">=" *)
| OpLt   (* "<" *)
| OpGt.  (* ">" *)

(** The string a [ComparisonOperator] is in the source. *)
Definition operatorText (op : ComparisonOperator) : string :=
  match op with
  | OpEq => "=="
  | OpNeq => "<>"
  | OpLe => "<="
  | OpGe => ">="
  | OpLt => "<"
  | OpGt => ">"
  end.

Record TupleReference : Type := {
  tupleId : string;
  tableName : string;
  columnName : string
}.

Record Predicate : Type := {
  left : TupleReference;
  operator : ComparisonOperator;
  right : TupleReference
}.

Record DenialConstraint : Type := {
  predicates : list Predicate
}.

Record SQLQuery : Type := {
  selectColumns : list string;
  fromClause : string;
  whereConditions : list string
}.

(** An optional property [p?: boolean] of an options object: not on the
    object, on it holding [undefined], or on it holding a boolean. *)
Inductive OptionalFlag : Type :=
| Missing
| Undefined
| Flag (b : bool).

Record TranspilerOptions : Type := {
  selectAllColumns : OptionalFlag;
  formatOutput : OptionalFlag;
  includeComments : OptionalFlag
}.

(** The object [{}]. *)
Definition noOptions : TranspilerOptions :=
  {| selectAllColumns := Missing; formatOutput := Missing;
     includeComments := Missing |}.

(** What [if (x)] and [x ? a : b] take the property for. *)
Definition truthy (o : OptionalFlag) : bool :=
  match o with
  | Flag b => b
  | _ => false
  end.

(** ** Set<string> *)

(** A JavaScript [Set] keeps its members in insertion order and [add]
    of a member already there changes nothing: a list without
    duplicates, [Array.from] and [size] being the list and its length. *)
Definition set_add (s : list string) (x : string) : list string :=
  if decide (x ∈ s) then s else s ++ [x].

(** [Array.prototype.join]. *)
Definition join (sep : string) (l : list string) : string :=
  String.concat sep l.

(** [Array.prototype.sort()] on strings: ascending in code unit order. *)
Definition sort (l : list string) : list string :=
  merge_sort String.le l.

(** The line feed, U+000A. *)
Definition LF : string := String "010"%char "".


(** The double quote, U+0022. *)
Definition DQUOTE : string := String "034"%char "".

(** ** transpiler.ts *)

Module DCTranspiler.

(** The constructor: [{ selectAllColumns: false, formatOutput: true,
    includeComments: false, ...options }].  A property of [options]
    replaces the default also when it holds [undefined]. *)
Definition spread (dflt : bool) (o : OptionalFlag) : OptionalFlag :=
  match o with
  | Missing => Flag dflt
  | _ => o
  end.

Definition new (options : TranspilerOptions) : TranspilerOptions :=
  {| selectAllColumns := spread false (selectAllColumns options);
     formatOutput := spread true (formatOutput options);
     includeComments := spread false (includeComments options) |}.

(** [dc.predicates[0].left.tableName]: [predicates[0]] of an empty
    array is [undefined], and reading [.left] of it throws. *)
Definition extractTableName (dc : DenialConstraint) : result string :=
  match predicates dc !! 0%nat with
  | Some pred => Return (tableName (left pred))
  | None => Throw TypeError
  end.

Definition extractTupleAliases (dc : DenialConstraint) : list string :=
  let aliases :=
    foldl (fun aliases pred =>
             set_add (set_add aliases (tupleId (left pred)))
                     (tupleId (right pred)))
          [] (predicates dc) in
  sort aliases.

Definition buildSelectColumns (dc : DenialConstraint)
    (tupleAliases : list string) : list string :=
  let columns :=
    foldl (fun columns pred =>
             set_add (set_add columns (columnName (left pred)))
                     (columnName (right pred)))
          [] (predicates dc) in
  foldl (fun selectColumns alias =>
           foldl (fun selectColumns col =>
                    selectColumns ++ [alias +:+ "." +:+ col])
                 selectColumns columns)
        [] tupleAliases.

(** [String.prototype.endsWith]. *)
Fixpoint endsWith (s suffix : string) : bool :=
  if String.eqb s suffix then true
  else match s with
       | "" => false
       | String _ s' => endsWith s' suffix
       end.

(** [s.slice(0, -n)] for [n] at most the length of [s]. *)
Definition dropLast (n : nat) (s : string) : string :=
  String.substring 0 (String.length s - n) s.

(** [/[.-]/.test(s)]. *)
Fixpoint hasDotOrHyphen (s : string) : bool :=
  match s with
  | "" => false
  | String c s' =>
      Ascii.eqb c "."%char || Ascii.eqb c "-"%char || hasDotOrHyphen s'
  end.

Definition cleanTableName (tableName : string) : string :=
  let cleaned := tableName in
  let cleaned :=
    if endsWith cleaned ".csv" then dropLast 4 cleaned else cleaned in
  let cleaned :=
    if hasDotOrHyphen cleaned then DQUOTE +:+ cleaned +:+ DQUOTE
    else cleaned in
  cleaned.

Definition buildFromClause (tableName : string)
    (tupleAliases : list string) : string :=
  let cleanTableName := cleanTableName tableName in
  join ", " (map (fun alias => cleanTableName +:+ " " +:+ alias)
                 tupleAliases).

Definition convertOperator (op : ComparisonOperator) : string :=
  match op with
  | OpEq => "="
  | OpNeq => "!="
  | OpLe => "<="
  | OpGe => ">="
  | OpLt => "<"
  | OpGt => ">"
  end.

Definition predicateToSQL (pred : Predicate) : string :=
  let leftSide := tupleId (left pred) +:+ "." +:+ columnName (left pred) in
  let rightSide :=
    tupleId (right pred) +:+ "." +:+ columnName (right pred) in
  let sqlOperator := convertOperator (operator pred) in
  leftSide +:+ " " +:+ sqlOperator +:+ " " +:+ rightSide.

Definition buildWhereConditions (dc : DenialConstraint) : list string :=
  map predicateToSQL (predicates dc).

Definition buildSQLQuery (this : TranspilerOptions)
    (dc : DenialConstraint) : result SQLQuery :=
  tableName ← extractTableName dc;
  let tupleAliases := extractTupleAliases dc in
  let selectColumns :=
    if truthy (selectAllColumns this)
    then map (fun alias => alias +:+ ".*") tupleAliases
    else buildSelectColumns dc tupleAliases in
  let fromClause := buildFromClause tableName tupleAliases in
  let whereConditions := buildWhereConditions dc in
  Return {| selectColumns := selectColumns;
            fromClause := fromClause;
            whereConditions := whereConditions |}.

(** The two characters the source has before the parenthesis of the
    comment line: U+00C2 and U+00AC. *)
Definition commentNegation : string :=
  String "194"%char (String "172"%char "").

(** The predicate as the comment line shows it. *)
Definition commentPredicate (p : Predicate) : string :=
  tupleId (left p) +:+ "." +:+ columnName (left p) +:+ " " +:+
  operatorText (operator p) +:+ " " +:+
  tupleId (right p) +:+ "." +:+ columnName (right p).

Definition formatSQL (this : TranspilerOptions) (sqlQuery : SQLQuery)
    (dc : DenialConstraint) : string :=
  let lines : list string := [] in
  let lines :=
    if truthy (includeComments this)
    then lines ++ ["-- Denial Constraint Violation Query"]
               ++ ["-- Generated from: " +:+ commentNegation +:+ "(" +:+
                   join " ^ " (map commentPredicate (predicates dc)) +:+
                   ")"]
               ++ [""]
    else lines in
  let lines :=
    if truthy (formatOutput this)
    then lines ++ ["SELECT"]
               ++ ["  " +:+ join ("," +:+ LF +:+ "  ")
                                 (selectColumns sqlQuery)]
               ++ ["FROM"]
               ++ ["  " +:+ fromClause sqlQuery]
               ++ ["WHERE"]
               ++ ["  " +:+ join (LF +:+ "  AND ")
                                 (whereConditions sqlQuery)]
               ++ [";"]
    else
      let sql :=
        ("SELECT " +:+ join ", " (selectColumns sqlQuery) +:+ " ") +:+
        ("FROM " +:+ fromClause sqlQuery +:+ " ") +:+
        ("WHERE " +:+ join " AND " (whereConditions sqlQuery) +:+ ";") in
      lines ++ [sql] in
  join LF lines.

Definition transpile (this : TranspilerOptions)
    (dc : DenialConstraint) : result string :=
  sqlQuery ← buildSQLQuery this dc;
  Return (formatSQL this sqlQuery dc).

End DCTranspiler.

(** ** The grammar *)

(** [grammar.ohm], the file [DCParser] loads its grammar from, is not
    among the sources.  The matcher below is modelled from the grammar of
    the specification (section 4.1); its rule names are those the
    semantic actions of [parser.ts] are written for.  Whitespace is
    skipped before every token: the negation sign, the parentheses, the
    caret, an operator, and each of the five parts of a reference, its
    tuple identifier, its two dots and its two names. *)

Module Grammar.

(** The nodes of a successful match, each holding the source strings
    its semantic action in [parser.ts] reads. *)
Record TupleRefNode : Type := {
  identifier : string;
  tableNameNode : string;
  columnNameNode : string
}.

Record PredicateNode : Type := {
  leftRef : TupleRefNode;
  operatorNode : ComparisonOperator;
  rightRef : TupleRefNode
}.

Record PredicateListNode : Type := {
  firstPredicate : PredicateNode;
  restPredicates : list PredicateNode
}.

(** Modelled from the spec: [grammar.ohm] is not among the sources.
    The negation symbol, the single character U+00AC. *)
Definition notSign : ascii := "172"%char.

(** Modelled from the spec: [grammar.ohm] is not among the sources.
    A decimal digit. *)
Definition isDigit (c : ascii) : bool :=
  (48 <=? nat_of_ascii c)%nat && (nat_of_ascii c <=? 57)%nat.

(** Modelled from the spec: [grammar.ohm] is not among the sources.
    A letter, [A] to [Z] or [a] to [z]. *)
Definition isLetter (c : ascii) : bool :=
  ((65 <=? nat_of_ascii c)%nat && (nat_of_ascii c <=? 90)%nat) ||
  ((97 <=? nat_of_ascii c)%nat && (nat_of_ascii c <=? 122)%nat).

(** Modelled from the spec: [grammar.ohm] is not among the sources.
    A character of [QualifiedName ::= (Letter | Digit | "_" | "." | "-")+]. *)
Definition isNameChar (c : ascii) : bool :=
  isLetter c || isDigit c || Ascii.eqb c "_"%char ||
  Ascii.eqb c "."%char || Ascii.eqb c "-"%char.

(** Every character of the string passes the test. *)
Fixpoint allChars (f : ascii -> bool) (s : string) : bool :=
  match s with
  | "" => true
  | String c s' => f c && allChars f s'
  end.

(** Modelled from the spec: [grammar.ohm] is not among the sources.
    [TupleId ::= "t" Digit+]. *)
Definition isTupleId (s : string) : bool :=
  match s with
  | String c ds =>
      Ascii.eqb c "t"%char && negb (String.eqb ds "") && allChars isDigit ds
  | "" => false
  end.

(** Modelled from the spec: [grammar.ohm] is not among the sources.
    Whitespace between tokens is insignificant. *)
Fixpoint skipSpaces (s : string) : string :=
  match s with
  | String c s' => if Ascii.is_space c then skipSpaces s' else s
  | "" => ""
  end.

(** Modelled from the spec: [grammar.ohm] is not among the sources.
    The text before the last dot and the text after it. *)
Fixpoint splitLastDot (s : string) : option (string * string) :=
  match s with
  | "" => None
  | String c s' =>
      match splitLastDot s' with
      | Some (a, b) => Some (String c a, b)
      | None => if Ascii.eqb c "."%char then Some ("", s') else None
      end
  end.

(** Modelled from the spec: [grammar.ohm] is not among the sources.
    The longest prefix of characters that pass the test, and what
    follows it. *)
Fixpoint run (f : ascii -> bool) (s : string) : string * string :=
  match s with
  | String c s' =>
      if f c then let '(r, rest) := run f s' in (String c r, rest)
      else ("", s)
  | "" => ("", "")
  end.

(** Modelled from the spec: [grammar.ohm] is not among the sources.
    [TupleId ::= "t" Digit+] at the start of the text. *)
Definition parseIdentifier (s : string) : option (string * string) :=
  match s with
  | String c s' =>
      if Ascii.eqb c "t"%char then
        let '(ds, rest) := run isDigit s' in
        if String.eqb ds "" then None else Some (String c ds, rest)
      else None
  | "" => None
  end.

(** Modelled from the spec: [grammar.ohm] is not among the sources.
    A character of the two names of a reference or of the whitespace
    between them and the dot. *)
Definition isRefChar (c : ascii) : bool := isNameChar c || Ascii.is_space c.

(** Modelled from the spec: [grammar.ohm] is not among the sources.
    The text without the whitespace it ends with. *)
Fixpoint dropTrailingSpaces (s : string) : string :=
  match s with
  | "" => ""
  | String c s' =>
      let r := dropTrailingSpaces s' in
      if Ascii.is_space c && String.eqb r "" then "" else String c r
  end.

(** Modelled from the spec: [grammar.ohm] is not among the sources.
    The text without the whitespace around it. *)
Definition trim (s : string) : string := dropTrailingSpaces (skipSpaces s).

(** Modelled from the spec: [grammar.ohm] is not among the sources.
    [QualifiedName ::= (Letter | Digit | "_" | "." | "-")+]. *)
Definition isQualifiedName (s : string) : bool :=
  negb (String.eqb s "") && allChars isNameChar s.

(** Modelled from the spec: [grammar.ohm], the grammar [DCParser]
    loads, is not among the sources.  This is the rule
    [TupleRef ::= TupleId "." QualifiedName "." QualifiedName], whitespace
    skipped before each of its five parts, with the anchoring of section
    4.1: the dot after the tuple identifier starts the table name, what
    comes after the last dot of the reference is the column name, and
    what is between the two, dots included, is the table name.  The two
    names and the whitespace around the dot between them are read as far
    as name characters and whitespace go; each name is then taken without
    the whitespace around it, and has to be a name: non-empty, with no
    whitespace within. *)
Definition parseTupleRef (s : string) : option (TupleRefNode * string) :=
  '(tid, s1) ← parseIdentifier s;
  match skipSpaces s1 with
  | String c s2 =>
      if Ascii.eqb c "."%char then
        let '(names, rest) := run isRefChar (skipSpaces s2) in
        '(before, after) ← splitLastDot names;
        let table := trim before in
        let column := trim after in
        if isQualifiedName table && isQualifiedName column
        then Some ({| identifier := tid; tableNameNode := table;
                      columnNameNode := column |}, rest)
        else None
      else None
  | "" => None
  end.

(** Modelled from the spec: [grammar.ohm] is not among the sources.
    [Operator ::= "==" | "<>" | "<=" | ">=" | "<" | ">"]. *)
Definition parseOperator (s : string)
    : option (ComparisonOperator * string) :=
  match s with
  | String "=" (String "=" rest) => Some (OpEq, rest)
  | String "<" (String ">" rest) => Some (OpNeq, rest)
  | String "<" (String "=" rest) => Some (OpLe, rest)
  | String ">" (String "=" rest) => Some (OpGe, rest)
  | String "<" rest => Some (OpLt, rest)
  | String ">" rest => Some (OpGt, rest)
  | _ => None
  end.

(** Modelled from the spec: [grammar.ohm] is not among the sources.
    [Predicate ::= TupleRef Operator TupleRef], whitespace skipped
    before each of the three. *)
Definition parsePredicate (s : string) : option (PredicateNode * string) :=
  '(l, s1) ← parseTupleRef (skipSpaces s);
  '(op, s2) ← parseOperator (skipSpaces s1);
  '(r, s3) ← parseTupleRef (skipSpaces s2);
  Some ({| leftRef := l; operatorNode := op; rightRef := r |}, s3).

(** Modelled from the spec: [grammar.ohm] is not among the sources.
    [("^" Predicate)*]; every round consumes a character, so the length
    of the text bounds the rounds. *)
Fixpoint parseRest (fuel : nat) (s : string)
    : option (list PredicateNode * string) :=
  match skipSpaces s with
  | String "^" s1 =>
      match fuel with
      | O => None
      | S fuel' =>
          '(p, s2) ← parsePredicate s1;
          '(ps, s3) ← parseRest fuel' s2;
          Some (p :: ps, s3)
      end
  | s' => Some ([], s')
  end.

(** Modelled from the spec: [grammar.ohm] is not among the sources.
    [DenialConstraint ::= U+00AC "(" PredicateList ")"] over the whole
    text, [PredicateList ::= Predicate ("^" Predicate)*], whitespace
    skipped between the tokens. *)
Definition match_ (dcString : string) : option PredicateListNode :=
  match skipSpaces dcString with
  | String c s1 =>
      if Ascii.eqb c notSign then
        match skipSpaces s1 with
        | String "(" s2 =>
            '(p, s3) ← parsePredicate s2;
            '(ps, s4) ← parseRest (String.length s3) s3;
            match skipSpaces s4 with
            | String ")" s5 =>
                if String.eqb (skipSpaces s5) ""
                then Some {| firstPredicate := p; restPredicates := ps |}
                else None
            | _ => None
            end
        | _ => None
        end
      else None
  | "" => None
  end.

End Grammar.

(** ** parser.ts *)

Module DCParser.
Import Grammar.

(** The semantic actions of the operation [eval]. *)
Definition evalTupleRef (n : TupleRefNode) : TupleReference :=
  {| tupleId := identifier n;
     tableName := tableNameNode n;
     columnName := columnNameNode n |}.

Definition evalPredicate (n : PredicateNode) : Predicate :=
  {| left := evalTupleRef (leftRef n);
     operator := operatorNode n;
     right := evalTupleRef (rightRef n) |}.

Definition evalPredicateList (n : PredicateListNode) : list Predicate :=
  let predicates := [evalPredicate (firstPredicate n)] in
  foldl (fun predicates pred => predicates ++ [evalPredicate pred])
        predicates (restPredicates n).

Definition evalDenialConstraint (n : PredicateListNode) : DenialConstraint :=
  {| predicates := evalPredicateList n |}.

Definition parse (dcString : string) : result DenialConstraint :=
  match match_ dcString with
  | None => Throw ParseError
  | Some m => Return (evalDenialConstraint m)
  end.

Definition noPredicate : string :=
  "Denial constraint must have at least one predicate".
Definition severalTables : string :=
  "All predicates must reference the same table".

Definition validate (dc : DenialConstraint) : result bool :=
  if (length (predicates dc) =? 0)%nat then Throw (Error noPredicate)
  else
    let tableNames :=
      foldl (fun tableNames pred =>
               set_add (set_add tableNames (tableName (left pred)))
                       (tableName (right pred)))
            [] (predicates dc) in
    if negb (length tableNames =? 1)%nat then Throw (Error severalTables)
    else Return true.

End DCParser.

(** ** index.ts *)

Definition transpileDC (dcString : string)
    (options : option TranspilerOptions) : result string :=
  let transpiler := DCTranspiler.new (default noOptions options) in
  dc ← DCParser.parse dcString;
  _ ← DCParser.validate dc;
  DCTranspiler.transpile transpiler dc.

Definition parseDC (dcString : string) : result DenialConstraint :=
  DCParser.parse dcString.

(** * The notions the properties are stated with *)

(** ** What the loops collect *)

(** The strings a [forEach] over the predicates adds to a [Set], in the
    order it adds them: for each predicate the one of the left reference,
    then the one of the right reference. *)
Definition mentions (field : TupleReference -> string)
    (dc : DenialConstraint) : list string :=
  flat_map (fun pred => [field (left pred); field (right pred)])
           (predicates dc).

(** The members of a list in the order of their first appearance, those
    in [seen] left out. *)
Fixpoint firstAppearances (seen : gset string) (l : list string)
    : list string :=
  match l with
  | [] => []
  | x :: l' =>
      if decide (x ∈ seen) then firstAppearances seen l'
      else x :: firstAppearances (seen ∪ {[x]}) l'
  end.

(** ** The text of a query *)

(** The comment block [formatSQL] puts first when [includeComments]
    holds, with the line break that ends it. *)
Definition commentBlock (dc : DenialConstraint) : string :=
  "-- Denial Constraint Violation Query" +:+ LF +:+
  "-- Generated from: " +:+ DCTranspiler.commentNegation +:+ "(" +:+
  join " ^ " (map DCTranspiler.commentPredicate (predicates dc)) +:+ ")" +:+
  LF +:+ LF.

(** The statement on several lines and on one. *)
Definition formattedStatement (q : SQLQuery) : string :=
  "SELECT" +:+ LF +:+
  "  " +:+ join ("," +:+ LF +:+ "  ") (selectColumns q) +:+ LF +:+
  "FROM" +:+ LF +:+
  "  " +:+ fromClause q +:+ LF +:+
  "WHERE" +:+ LF +:+
  "  " +:+ join (LF +:+ "  AND ") (whereConditions q) +:+ LF +:+
  ";".

Definition compactStatement (q : SQLQuery) : string :=
  "SELECT " +:+ join ", " (selectColumns q) +:+ " " +:+
  "FROM " +:+ fromClause q +:+ " " +:+
  "WHERE " +:+ join " AND " (whereConditions q) +:+ ";".

(** The SQL spelling of an operator: [==] is [=], [<>] is [!=], an
    ordering operator is spelled as in the constraint. *)
Definition sqlOperator (op : ComparisonOperator) : string :=
  match op with
  | OpEq => "="
  | OpNeq => "!="
  | OpLe | OpGe | OpLt | OpGt => operatorText op
  end.

(** [leftTupleId.leftColumn SQLOP rightTupleId.rightColumn]. *)
Definition condition (p : Predicate) : string :=
  tupleId (left p) +:+ "." +:+ columnName (left p) +:+ " " +:+
  sqlOperator (operator p) +:+ " " +:+
  tupleId (right p) +:+ "." +:+ columnName (right p).

(** The WHERE clause as it ends the statement. *)
Definition whereClause (formatted : bool) (conditions : list string)
    : string :=
  if formatted
  then "WHERE" +:+ LF +:+ "  " +:+ join (LF +:+ "  AND ") conditions +:+
       LF +:+ ";"
  else "WHERE " +:+ join " AND " conditions +:+ ";".

(** ** Names, columns and aliases *)

(** The characters of a string. *)
Definition chars (s : string) : list ascii := String.list_ascii_of_string s.

(** A name that has a dot or a hyphen in it. *)
Definition special (s : string) : Prop :=
  "."%char ∈ chars s \/ "-"%char ∈ chars s.

(** The set of the table names of a constraint: those of the left and
    right references of all its predicates. *)
Definition tableNames (dc : DenialConstraint) : gset string :=
  list_to_set (mentions tableName dc).

(** The two errors of [validate], each naming the rule that is broken;
    the specification calls them [WellFormednessError]. *)
Definition WellFormednessError (e : exn) : Prop :=
  e = Error DCParser.noPredicate \/ e = Error DCParser.severalTables.

(** The distinct column names of a constraint in the order of their
    first appearance: left reference then right reference, predicate by
    predicate. *)
Definition columns (dc : DenialConstraint) : list string :=
  firstAppearances ∅ (mentions columnName dc).

(** [alias.column] for every alias and every column, the aliases in the
    outer loop. *)
Definition selectList (aliases cols : list string) : list string :=
  flat_map (fun alias => map (fun col => alias +:+ "." +:+ col) cols)
           aliases.

(** [a] comes before [b] in the order of [sort]: at the first position
    where they differ [a] has the smaller code unit, or [a] is a proper
    prefix of [b]. *)
Definition precedes (a b : string) : Prop := String.compare a b = Lt.

(** ** The constraints of the examples *)

(** The reference [tupleId.tableName.columnName]. *)
Definition ref (t tbl col : string) : TupleReference :=
  {| tupleId := t; tableName := tbl; columnName := col |}.

(** A constraint over the four aliases t2, t10, t1, t0, in that order. *)
Definition fourAliases : DenialConstraint :=
  {| predicates :=
       [ {| left := ref "t2" "r" "A"; operator := OpEq;
            right := ref "t10" "r" "A" |};
         {| left := ref "t1" "r" "B"; operator := OpLt;
            right := ref "t0" "r" "B" |} ] |}.

(** The negation sign as a string. *)
Definition negation : string := String Grammar.notSign "".

(** The airport constraint of the examples, as text and as parsed. *)
Definition airportText : string :=
  negation +:+
  "(t0.airport.Country==t1.airport.Country^t0.airport.Timezone<>t1.airport.Timezone)".

Definition airport : DenialConstraint :=
  {| predicates :=
       [ {| left := ref "t0" "airport" "Country"; operator := OpEq;
            right := ref "t1" "airport" "Country" |};
         {| left := ref "t0" "airport" "Timezone"; operator := OpNeq;
            right := ref "t1" "airport" "Timezone" |} ] |}.

(** The options [{ formatOutput: false }]. *)
Definition compact : TranspilerOptions :=
  {| selectAllColumns := Missing; formatOutput := Flag false;
     includeComments := Missing |}.

(** A constraint over two tables, as text and as parsed. *)
Definition twoTablesText : string := negation +:+ "(t0.A.X==t1.B.X)".

Definition twoTables : DenialConstraint :=
  {| predicates :=
       [ {| left := ref "t0" "A" "X"; operator := OpEq;
            right := ref "t1" "B" "X" |} ] |}.

(** The options [{ includeComments: true }]. *)
Definition commented : TranspilerOptions :=
  {| selectAllColumns := Missing; formatOutput := Missing;
     includeComments := Flag true |}.

(** The comment line as it would start with the negation sign alone. *)
Definition generatedFrom : string :=
  "-- Denial Constraint Violation Query" +:+ LF +:+
  "-- Generated from: " +:+ negation +:+ "(".

(** What has the source's literal in it: U+00C2, then the sign. *)
Definition generatedFromSource : string :=
  "-- Denial Constraint Violation Query" +:+ LF +:+
  "-- Generated from: " +:+ String "194"%char negation +:+ "(".

(** ** The text of a constraint *)

(** The string has a dot in it. *)
Fixpoint hasDot (s : string) : bool :=
  match s with
  | "" => false
  | String c s' => Ascii.eqb c "."%char || hasDot s'
  end.

(** A non-empty string of name characters. *)
Definition isName (s : string) : bool :=
  negb (String.eqb s "") && Grammar.allChars Grammar.isNameChar s.

(** A reference the grammar has a text for: a tuple identifier, a table
    name, which may have dots in it, and a column name without a dot. *)
Definition validRef (r : TupleReference) : bool :=
  Grammar.isTupleId (tupleId r) && isName (tableName r) &&
  isName (columnName r) && negb (hasDot (columnName r)).

(** A predicate, and a constraint, of such references; a constraint has
    at least one predicate. *)
Definition validPredicate (p : Predicate) : bool :=
  validRef (left p) && validRef (right p).

Definition validConstraint (dc : DenialConstraint) : bool :=
  match predicates dc with
  | [] => false
  | _ :: _ => forallb validPredicate (predicates dc)
  end.

(** The text of a reference, of a predicate and of a constraint, without
    whitespace. *)
Definition refText (r : TupleReference) : string :=
  tupleId r +:+ "." +:+ tableName r +:+ "." +:+ columnName r.

Definition predicateText (p : Predicate) : string :=
  refText (left p) +:+ operatorText (operator p) +:+ refText (right p).

Definition constraintText (dc : DenialConstraint) : string :=
  negation +:+ "(" +:+ join "^" (map predicateText (predicates dc)) +:+ ")".

(** The dot-delimited segments of a string. *)
Fixpoint segments (s : string) : list string :=
  match s with
  | "" => [""]
  | String c s' =>
      if Ascii.eqb c "."%char then "" :: segments s'
      else match segments s' with
           | seg :: rest => String c seg :: rest
           | [] => [String c ""]
           end
  end.

(** The nodes of the match of a constraint's text. *)
Definition nodeOfRef (r : TupleReference) : Grammar.TupleRefNode :=
  {| Grammar.identifier := tupleId r;
     Grammar.tableNameNode := tableName r;
     Grammar.columnNameNode := columnName r |}.

Definition nodeOfPredicate (p : Predicate) : Grammar.PredicateNode :=
  {| Grammar.leftRef := nodeOfRef (left p);
     Grammar.operatorNode := operator p;
     Grammar.rightRef := nodeOfRef (right p) |}.

(** [^ predicate] for each predicate, then [rest]. *)
Definition restText (ps : list Predicate) (rest : string) : string :=
  fold_right (fun p acc => "^" +:+ predicateText p +:+ acc) rest ps.

(** ** Whitespace *)

(** The string is made of whitespace. *)
Definition isSpaces (w : string) : bool :=
  Grammar.allChars Ascii.is_space w.

(** The text without its whitespace. *)
Fixpoint removeSpaces (s : string) : string :=
  match s with
  | "" => ""
  | String c s' =>
      if Ascii.is_space c then removeSpaces s' else String c (removeSpaces s')
  end.

(** A text at whose start a reference ends: it is empty, or its first
    character is neither of a name nor whitespace. *)
Definition ends (rest : string) : bool :=
  match rest with
  | "" => true
  | String c _ => negb (Grammar.isRefChar c)
  end.

(** ** References *)

(** The text of a reference with whitespace before and after its dots. *)
Definition spacedRefText (w1 w2 w3 w4 : string) (r : TupleReference)
    : string :=
  tupleId r +:+ w1 +:+ "." +:+ w2 +:+ tableName r +:+ w3 +:+ "." +:+ w4 +:+
  columnName r.

(** ** Predicates and constraints *)

(** The text of a predicate and of a constraint with the whitespace [w]
    between every two tokens, and around the whole. *)
Definition spacedPredicateText (w : string) (p : Predicate) : string :=
  spacedRefText w w w w (left p) +:+ w +:+ operatorText (operator p) +:+
  w +:+ spacedRefText w w w w (right p).

Definition spacedConstraintText (w : string) (dc : DenialConstraint)
    : string :=
  w +:+ negation +:+ w +:+ "(" +:+ w +:+
  join (w +:+ "^" +:+ w) (map (spacedPredicateText w) (predicates dc)) +:+
  w +:+ ")" +:+ w.

(** [^ predicate] for each predicate, with the whitespace [w], then
    [rest]. *)
Definition spacedRestText (w : string) (ps : list Predicate) (rest : string)
    : string :=
  fold_right (fun p acc => "^" +:+ w +:+ spacedPredicateText w p +:+ w +:+ acc)
             rest ps.

(** A constraint without predicates, which the grammar has no text
    for. *)
Definition withoutPredicates : DenialConstraint := {| predicates := [] |}.

(** The planets constraint of the examples, its table name a file name. *)
Definition planets : DenialConstraint :=
  {| predicates :=
       [ {| left := ref "t0" "WDC_planets.csv" "Rings"; operator := OpNeq;
            right := ref "t1" "WDC_planets.csv" "Rings" |};
         {| left := ref "t0" "WDC_planets.csv" "Type"; operator := OpEq;
            right := ref "t1" "WDC_planets.csv" "Type" |} ] |}.

(** ** Constraints that differ in their table names only *)

(** Two predicates with the same tuple identifiers, column names and
    operator; their table names may differ. *)
Definition agreeOffTables (p p' : Predicate) : Prop :=
  tupleId (left p) = tupleId (left p') /\
  columnName (left p) = columnName (left p') /\
  operator p = operator p' /\
  tupleId (right p) = tupleId (right p') /\
  columnName (right p) = columnName (right p').

(** ** Characters of a text *)

(** The string has the character in it. *)
Fixpoint hasChar (c : ascii) (s : string) : bool :=
  match s with
  | "" => false
  | String c' s' => Ascii.eqb c' c || hasChar c s'
  end.

(** The line feed as a character. *)
Definition lineFeed : ascii := "010"%char.

(** * Properties *)

(** ** Strings *)

Section Strings.

Lemma append_cons (c : ascii) (s1 s2 : string) :
  String c s1 +:+ s2 = String c (s1 +:+ s2).
Proof. done. Qed.

Lemma append_nil_l (s : string) : "" +:+ s = s.
Proof. done. Qed.

Lemma append_nil_r (s : string) : s +:+ "" = s.
Proof.
  induction s as [|c s IH]; [done|]. by rewrite append_cons, IH.
Qed.

Lemma append_assoc (s1 s2 s3 : string) :
  (s1 +:+ s2) +:+ s3 = s1 +:+ (s2 +:+ s3).
Proof.
  induction s1 as [|c s1 IH]; [done|]. by rewrite !append_cons, IH.
Qed.

Lemma length_append (s1 s2 : string) :
  String.length (s1 +:+ s2) = String.length s1 + String.length s2.
Proof.
  induction s1 as [|c s1 IH]; [done|]. rewrite append_cons. simpl.
  by rewrite IH.
Qed.

Lemma substring_append (s1 s2 : string) :
  String.substring 0 (String.length s1) (s1 +:+ s2) = s1.
Proof.
  induction s1 as [|c s1 IH].
  - rewrite append_nil_l. by destruct s2.
  - rewrite append_cons. simpl. by rewrite IH.
Qed.

End Strings.

(** ** Sets as the code fills them *)

Section SetModel.

Lemma set_add_elem_of (s : list string) (x y : string) :
  y ∈ set_add s x <-> y ∈ s \/ y = x.
Proof.
  unfold set_add. destruct (decide (x ∈ s)).
  - split; [by left|]. by intros [?| ->].
  - rewrite elem_of_app, list_elem_of_singleton. done.
Qed.

Lemma set_add_NoDup (s : list string) (x : string) :
  NoDup s -> NoDup (set_add s x).
Proof.
  unfold set_add. intros Hs. destruct (decide (x ∈ s)); [done|].
  apply NoDup_app. split_and!; [done| |apply NoDup_singleton].
  intros y Hy ->%list_elem_of_singleton. done.
Qed.

Lemma foldl_set_add_pairs (field : TupleReference -> string)
    (ps : list Predicate) (s : list string) :
  foldl (fun acc pred =>
           set_add (set_add acc (field (left pred))) (field (right pred)))
        s ps
  = foldl set_add s
          (flat_map (fun pred => [field (left pred); field (right pred)])
                    ps).
Proof.
  revert s. induction ps as [|p ps IH]; intros s; simpl; [done|].
  by rewrite IH.
Qed.

Lemma foldl_set_add_first (s l : list string) :
  foldl set_add s l = s ++ firstAppearances (list_to_set s) l.
Proof.
  revert s. induction l as [|x l IH]; intros s; simpl.
  - by rewrite app_nil_r.
  - rewrite IH. unfold set_add.
    destruct (decide (x ∈ s)) as [Hin|Hout].
    + rewrite decide_True by (by apply elem_of_list_to_set). done.
    + rewrite decide_False by (by rewrite elem_of_list_to_set).
      assert (list_to_set (C := gset string) (s ++ [x])
              = list_to_set s ∪ {[x]}) as ->.
      { rewrite list_to_set_app_L. simpl. by rewrite union_empty_r_L. }
      by rewrite <- app_assoc.
Qed.

Lemma firstAppearances_elem_of (seen : gset string) (l : list string)
    (x : string) :
  x ∈ firstAppearances seen l <-> x ∈ l /\ x ∉ seen.
Proof.
  revert seen. induction l as [|y l IH]; intros seen; simpl.
  - rewrite !elem_of_nil. tauto.
  - destruct (decide (y ∈ seen)).
    + rewrite IH, elem_of_cons. split; [intros [? ?]; by auto|].
      intros [[->|?] ?]; [done|by auto].
    + rewrite !elem_of_cons, IH, elem_of_union, elem_of_singleton.
      destruct (decide (x = y)) as [->|Hxy]; [by intuition auto|].
      split.
      * intros [?|[? ?]]; [done|]. split; [by right|]. tauto.
      * intros [[?|?] ?]; [done|]. right. tauto.
Qed.

Lemma firstAppearances_NoDup (seen : gset string) (l : list string) :
  NoDup (firstAppearances seen l).
Proof.
  revert seen. induction l as [|y l IH]; intros seen; simpl.
  - constructor.
  - destruct (decide (y ∈ seen)); [apply IH|].
    constructor; [|apply IH].
    rewrite firstAppearances_elem_of. intros [_ Hy]. apply Hy.
    apply elem_of_union. right. by apply elem_of_singleton.
Qed.

Lemma firstAppearances_to_set (l : list string) :
  list_to_set (C := gset string) (firstAppearances ∅ l) = list_to_set l.
Proof.
  apply set_eq. intros x.
  rewrite !elem_of_list_to_set, firstAppearances_elem_of, elem_of_empty.
  tauto.
Qed.

Lemma firstAppearances_length (l : list string) :
  length (firstAppearances ∅ l) = size (list_to_set (C := gset string) l).
Proof.
  rewrite <- firstAppearances_to_set.
  symmetry. apply size_list_to_set, firstAppearances_NoDup.
Qed.

(** What each of the three [forEach] loops leaves in its [Set]. *)
Lemma collected (field : TupleReference -> string) (dc : DenialConstraint) :
  foldl (fun acc pred =>
           set_add (set_add acc (field (left pred))) (field (right pred)))
        [] (predicates dc)
  = firstAppearances ∅ (mentions field dc).
Proof.
  rewrite foldl_set_add_pairs, foldl_set_add_first. done.
Qed.

End SetModel.

(** ** The query of a constraint *)

Section Query.
Import DCTranspiler.

Variable this : TranspilerOptions.

(** The only step of [buildSQLQuery] that can throw is the first. *)
Lemma buildSQLQuery_cons (dc : DenialConstraint) (p : Predicate)
    (ps : list Predicate) :
  predicates dc = p :: ps ->
  buildSQLQuery this dc =
    Return {| selectColumns :=
                if truthy (selectAllColumns this)
                then map (fun alias => alias +:+ ".*")
                         (extractTupleAliases dc)
                else buildSelectColumns dc (extractTupleAliases dc);
              fromClause :=
                buildFromClause (tableName (left p))
                                (extractTupleAliases dc);
              whereConditions := buildWhereConditions dc |}.
Proof.
  intros Hps. unfold buildSQLQuery, extractTableName. by rewrite Hps.
Qed.

Lemma buildSQLQuery_nil (dc : DenialConstraint) :
  predicates dc = [] -> buildSQLQuery this dc = Throw TypeError.
Proof.
  intros Hps. unfold buildSQLQuery, extractTableName. by rewrite Hps.
Qed.

Lemma buildSQLQuery_Return (dc : DenialConstraint) (q : SQLQuery) :
  buildSQLQuery this dc = Return q ->
  exists p ps, predicates dc = p :: ps.
Proof.
  destruct (predicates dc) as [|p ps] eqn:Hps; [|by eauto].
  by rewrite buildSQLQuery_nil.
Qed.

Lemma transpile_cons (dc : DenialConstraint) (p : Predicate)
    (ps : list Predicate) :
  predicates dc = p :: ps ->
  exists q, buildSQLQuery this dc = Return q /\
            transpile this dc = Return (formatSQL this q dc).
Proof.
  intros Hps. unfold transpile.
  rewrite (buildSQLQuery_cons dc p ps Hps). eauto.
Qed.

End Query.

(** ** The text of a query *)

Section Text.
Import DCTranspiler.

Lemma formatSQL_text (this : TranspilerOptions) (q : SQLQuery)
    (dc : DenialConstraint) :
  formatSQL this q dc =
    (if truthy (includeComments this) then commentBlock dc else "") +:+
    (if truthy (formatOutput this) then formattedStatement q
     else compactStatement q).
Proof.
  unfold formatSQL, commentBlock, formattedStatement, compactStatement.
  destruct (truthy (includeComments this)),
           (truthy (formatOutput this)); cbn [app join String.concat];
    rewrite ?append_assoc, ?append_nil_l; reflexivity.
Qed.

End Text.

(** ** The WHERE clause *)

Section Where.
Import DCTranspiler.

Lemma convertOperator_sqlOperator (op : ComparisonOperator) :
  convertOperator op = sqlOperator op.
Proof. by destruct op. Qed.

Lemma predicateToSQL_condition (p : Predicate) :
  predicateToSQL p = condition p.
Proof.
  unfold predicateToSQL, condition.
  by rewrite convertOperator_sqlOperator, !append_assoc.
Qed.

Lemma buildWhereConditions_map (dc : DenialConstraint) :
  buildWhereConditions dc = map condition (predicates dc).
Proof.
  unfold buildWhereConditions. apply map_ext, predicateToSQL_condition.
Qed.

Lemma formatSQL_where (this : TranspilerOptions) (q : SQLQuery)
    (dc : DenialConstraint) :
  exists before,
    formatSQL this q dc =
      before +:+ whereClause (truthy (formatOutput this))
                             (whereConditions q).
Proof.
  rewrite formatSQL_text. unfold whereClause.
  set (c := if truthy (includeComments this) then _ else _).
  destruct (truthy (formatOutput this)).
  - exists (c +:+ "SELECT" +:+ LF +:+ "  " +:+
            join ("," +:+ LF +:+ "  ") (selectColumns q) +:+ LF +:+
            "FROM" +:+ LF +:+ "  " +:+ fromClause q +:+ LF).
    unfold formattedStatement. by rewrite !append_assoc.
  - exists (c +:+ "SELECT " +:+ join ", " (selectColumns q) +:+ " " +:+
            "FROM " +:+ fromClause q +:+ " ").
    unfold compactStatement. by rewrite !append_assoc.
Qed.

(** C6.  The WHERE clause has one condition per predicate, in the
    order of the predicates: the conditions [buildWhereConditions]
    returns are [condition] of each predicate of the constraint, the
    i-th for the i-th, each of the form
    leftTupleId.leftColumn SQLOP rightTupleId.rightColumn, where
    [convertOperator] turns [==] into [=], [<>] into [!=] and leaves
    [<], [<=], [>], [>=] as they are; these are the conditions of the
    query [buildSQLQuery] returns, and the text [transpile] returns
    ends with them, joined by AND, as its WHERE clause. *)
Theorem where_conditions_follow_predicates (this : TranspilerOptions)
    (dc : DenialConstraint) :
  buildWhereConditions dc = map condition (predicates dc)
  /\ length (buildWhereConditions dc) = length (predicates dc)
  /\ (forall (i : nat) (p : Predicate),
        predicates dc !! i = Some p ->
        buildWhereConditions dc !! i = Some (condition p))
  /\ (convertOperator OpEq = "=" /\ convertOperator OpNeq = "!=" /\
      convertOperator OpLt = "<" /\ convertOperator OpLe = "<=" /\
      convertOperator OpGt = ">" /\ convertOperator OpGe = ">=")
  /\ (forall q : SQLQuery,
        buildSQLQuery this dc = Return q ->
        whereConditions q = map condition (predicates dc))
  /\ (forall text : string,
        transpile this dc = Return text ->
        exists before,
          text = before +:+
                 whereClause (truthy (formatOutput this))
                             (map condition (predicates dc))).
Proof.
  split_and!.
  - apply buildWhereConditions_map.
  - unfold buildWhereConditions. apply length_map.
  - intros i p Hi. rewrite buildWhereConditions_map.
    rewrite list_lookup_fmap, Hi. done.
  - done.
  - done.
  - done.
  - done.
  - done.
  - done.
  - intros q Hq.
    destruct (buildSQLQuery_Return this dc q Hq) as (p & ps & Hps).
    rewrite (buildSQLQuery_cons this dc p ps Hps) in Hq.
    injection Hq as <-. apply buildWhereConditions_map.
  - intros text Ht.
    destruct (predicates dc) as [|p ps] eqn:Hps.
    + unfold transpile in Ht. by rewrite buildSQLQuery_nil in Ht.
    + destruct (transpile_cons this dc p ps Hps) as (q & Hq & Hq').
      rewrite Hq' in Ht. injection Ht as <-.
      destruct (formatSQL_where this q dc) as [before Hb].
      exists before. rewrite Hb. do 2 f_equal.
      rewrite (buildSQLQuery_cons this dc p ps Hps) in Hq.
      injection Hq as <-. simpl.
      rewrite buildWhereConditions_map. by rewrite Hps.
Qed.

End Where.

(** ** The FROM clause *)

Section From.
Import DCTranspiler.

Lemma endsWith_spec (s suffix : string) :
  endsWith s suffix = true <-> exists before, s = before +:+ suffix.
Proof.
  induction s as [|c s IH].
  - destruct suffix as [|c suffix]; simpl.
    + split; [|done]. intros _. by exists "".
    + split; [done|]. intros [[|c' before] Hb];
        rewrite ?append_nil_l, ?append_cons in Hb; discriminate.
  - change (endsWith (String c s) suffix)
      with (if String.eqb (String c s) suffix then true
            else endsWith s suffix).
    destruct (String.eqb_spec (String c s) suffix) as [<-|Hne].
    + split; [|done]. intros _. by exists "".
    + rewrite IH. split.
      * intros [before ->]. by exists (String c before).
      * intros [[|c' before] Hb]; [done|].
        rewrite append_cons in Hb. injection Hb as -> ->. by eexists.
Qed.

Lemma dropLast_append (before suffix : string) :
  dropLast (String.length suffix) (before +:+ suffix) = before.
Proof.
  unfold dropLast. rewrite length_append.
  replace (String.length before + String.length suffix
           - String.length suffix) with (String.length before) by lia.
  apply substring_append.
Qed.

Lemma hasDotOrHyphen_spec (s : string) :
  hasDotOrHyphen s = true <-> special s.
Proof.
  unfold special, chars. induction s as [|c s IH]; simpl.
  - rewrite !elem_of_nil. split; [done|]. by intros [[]|[]].
  - rewrite !elem_of_cons, !orb_true_iff, IH.
    rewrite !Ascii.eqb_eq. split.
    + intros [[->| ->]|[?|?]]; auto.
    + intros [[<-|?]|[<-|?]]; auto.
Qed.

Lemma cleanTableName_of_base (t base : string) :
  (endsWith t ".csv" = true /\ t = base +:+ ".csv") \/
  (endsWith t ".csv" = false /\ t = base) ->
  cleanTableName t =
    if hasDotOrHyphen base then DQUOTE +:+ base +:+ DQUOTE else base.
Proof.
  unfold cleanTableName. intros [[-> ->]|[-> ->]]; [|done].
  by rewrite (dropLast_append base ".csv"
              : dropLast 4 (base +:+ ".csv") = base).
Qed.

(** C7.  The table name of the FROM clause: a name that ends with
    [.csv] loses that suffix, and what is left is put between double
    quotes when it has a dot or a hyphen in it and is left as it is
    when it has none; the FROM clause is that name followed by each
    alias, comma-joined (for the table [hours] and the aliases [t0],
    [t1] it is [hours t0, hours t1]), and the query [buildSQLQuery]
    returns has it for the table of the first predicate's left
    reference and the sorted aliases of the constraint. *)
Theorem from_clause_table_name (this : TranspilerOptions)
    (dc : DenialConstraint) (t : string) (aliases : list string) :
  (forall base : string,
     t = base +:+ ".csv" \/ (base = t /\ ~ exists s, t = s +:+ ".csv") ->
     (special base -> cleanTableName t = DQUOTE +:+ base +:+ DQUOTE) /\
     (~ special base -> cleanTableName t = base))
  /\ buildFromClause t aliases =
       join ", " (map (fun alias => cleanTableName t +:+ " " +:+ alias)
                      aliases)
  /\ cleanTableName "hours" = "hours"
  /\ buildFromClause "hours" ["t0"; "t1"] = "hours t0, hours t1"
  /\ (forall q : SQLQuery,
        buildSQLQuery this dc = Return q ->
        exists p ps,
          predicates dc = p :: ps /\
          fromClause q =
            join ", " (map (fun alias =>
                              cleanTableName (tableName (left p)) +:+
                              " " +:+ alias)
                           (extractTupleAliases dc))).
Proof.
  split_and!; [|done..|].
  - intros base Hbase.
    assert (cleanTableName t =
            if hasDotOrHyphen base then DQUOTE +:+ base +:+ DQUOTE
            else base) as ->.
    { apply cleanTableName_of_base.
      destruct Hbase as [->|[-> Hno]].
      - left. split; [|done]. apply endsWith_spec. by eexists.
      - right. split; [|done].
        destruct (endsWith t ".csv") eqn:He; [|done].
        apply endsWith_spec in He. done. }
    destruct (hasDotOrHyphen base) eqn:Hs.
    + apply hasDotOrHyphen_spec in Hs. by split.
    + split; [|done]. intros Hs'%hasDotOrHyphen_spec. congruence.
  - intros q Hq.
    destruct (buildSQLQuery_Return this dc q Hq) as (p & ps & Hps).
    exists p, ps. split; [done|].
    rewrite (buildSQLQuery_cons this dc p ps Hps) in Hq.
    by injection Hq as <-.
Qed.

End From.

(** ** Constraints without predicates *)

Section Empty.
Import DCTranspiler.

(** C10.  [transpile] does not look whether the constraint has a
    predicate: [extractTableName] reads [predicates[0]], which an empty
    sequence does not have, and [transpile] then throws the
    [TypeError] of that read; it returns a text exactly when the
    sequence of predicates is not empty. *)
Theorem transpile_reads_first_predicate (this : TranspilerOptions)
    (dc : DenialConstraint) :
  (predicates dc !! 0%nat = None <-> predicates dc = [])
  /\ (extractTableName dc = Throw TypeError <-> predicates dc = [])
  /\ (transpile this dc = Throw TypeError <-> predicates dc = [])
  /\ ((exists text, transpile this dc = Return text)
      <-> predicates dc <> []).
Proof.
  unfold transpile, buildSQLQuery, extractTableName.
  destruct (predicates dc) as [|p ps]; simpl.
  - split_and!; try done. split; [|done]. by intros [? ?].
  - split_and!; try done. split; [done|]. intros _. by eexists.
Qed.

End Empty.

(** ** validate *)

Section Validate.
Import DCParser.

Lemma validate_nil (dc : DenialConstraint) :
  predicates dc = [] -> validate dc = Throw (Error noPredicate).
Proof. intros Hps. unfold validate. by rewrite Hps. Qed.

Lemma validate_cons (dc : DenialConstraint) :
  predicates dc <> [] ->
  validate dc =
    if decide (size (tableNames dc) = 1) then Return true
    else Throw (Error severalTables).
Proof.
  intros Hps. unfold validate.
  destruct (predicates dc) as [|p ps] eqn:Hpreds; [done|].
  rewrite <- Hpreds. replace (length (predicates dc) =? 0) with false
    by (by rewrite Hpreds).
  rewrite (collected tableName dc), firstAppearances_length.
  fold (tableNames dc).
  destruct (decide (size (tableNames dc) = 1)) as [->|Hne]; [done|].
  by apply Nat.eqb_neq in Hne as ->.
Qed.

(** C3.  [validate] throws one of its two errors exactly when the
    constraint has no predicate or the set of the table names of the
    left and right references of its predicates does not have exactly
    one member, and returns [true] otherwise.  It only reads the
    constraint: it is a function of it, and what it returns is all it
    does. *)
Theorem validate_fails_iff_not_single_table (dc : DenialConstraint) :
  ((exists e, validate dc = Throw e /\ WellFormednessError e)
   <-> (predicates dc = [] \/ size (tableNames dc) <> 1))
  /\ ((exists e, validate dc = Throw e)
      <-> (predicates dc = [] \/ size (tableNames dc) <> 1))
  /\ (~ (predicates dc = [] \/ size (tableNames dc) <> 1)
      <-> validate dc = Return true)
  /\ (predicates dc = [] -> validate dc = Throw (Error noPredicate))
  /\ (predicates dc <> [] -> size (tableNames dc) <> 1 ->
      validate dc = Throw (Error severalTables)).
Proof.
  destruct (decide (predicates dc = [])) as [Hnil|Hcons].
  - pose proof (validate_nil dc Hnil) as Hv. rewrite Hv.
    split_and!; try done.
    + split; [by left|]. intros _. eexists. split; [done|]. by left.
    + split; [by left|]. intros _. by eexists.
    + split; [|done]. intros Hno. destruct Hno. by left.
  - pose proof (validate_cons dc Hcons) as Hv. rewrite Hv.
    destruct (decide (size (tableNames dc) = 1)) as [Hone|Hmany].
    + split_and!; try done.
      * split; [by intros (? & ? & ?)|]. by intros [?|?].
      * split; [by intros [? ?]|]. by intros [?|?].
      * split; [done|]. intros _ [?|?]; done.
    + split_and!; try done.
      * split; [by right|]. intros _. eexists. split; [done|]. by right.
      * split; [by right|]. intros _. by eexists.
      * split; [|done]. intros Hno. destruct Hno. by right.
Qed.

End Validate.

(** ** The SELECT list *)

Section Select.
Import DCTranspiler.

Lemma firstAppearances_app (seen : gset string) (l1 l2 : list string) :
  firstAppearances seen (l1 ++ l2) =
    firstAppearances seen l1 ++
    firstAppearances (seen ∪ list_to_set l1) l2.
Proof.
  revert seen. induction l1 as [|x l1 IH]; intros seen; simpl.
  - f_equal. apply set_eq. intros y.
    rewrite elem_of_union, elem_of_empty. tauto.
  - destruct (decide (x ∈ seen)) as [Hin|Hout]; rewrite IH.
    + do 2 f_equal. apply set_eq. intros y.
      rewrite !elem_of_union, elem_of_singleton.
      split; [tauto|]. intros [?|[->|?]]; tauto.
    + simpl. do 3 f_equal. apply set_eq. intros y.
      rewrite !elem_of_union, elem_of_singleton. tauto.
Qed.

Lemma foldl_push {A B : Type} (f : A -> B) (acc : list B) (l : list A) :
  foldl (fun acc x => acc ++ [f x]) acc l = acc ++ map f l.
Proof.
  revert acc. induction l as [|x l IH]; intros acc; simpl.
  - by rewrite app_nil_r.
  - by rewrite IH, <- app_assoc.
Qed.

Lemma foldl_push_all (cols : list string) (acc aliases : list string) :
  foldl (fun acc alias =>
           foldl (fun acc col => acc ++ [alias +:+ "." +:+ col]) acc cols)
        acc aliases
  = acc ++ selectList aliases cols.
Proof.
  revert acc. induction aliases as [|a aliases IH]; intros acc; simpl.
  - by rewrite app_nil_r.
  - by rewrite IH, foldl_push, <- app_assoc.
Qed.

Lemma buildSelectColumns_selectList (dc : DenialConstraint)
    (aliases : list string) :
  buildSelectColumns dc aliases = selectList aliases (columns dc).
Proof.
  unfold buildSelectColumns.
  by rewrite (collected columnName dc), foldl_push_all.
Qed.

(** C8.  When [selectAllColumns] does not hold, the SELECT list is
    [alias.column] over every alias and column, the outer loop over the
    aliases in their sorted order, the inner loop over the distinct
    column names of the predicates in the order of their first
    appearance (left reference then right reference, predicate by
    predicate, no name twice): every column of the first alias comes
    before any column of the second. *)
Theorem select_list_alias_major (this : TranspilerOptions)
    (dc : DenialConstraint) (aliases : list string) :
  buildSelectColumns dc aliases = selectList aliases (columns dc)
  /\ NoDup (columns dc)
  /\ (forall col, col ∈ columns dc <-> col ∈ mentions columnName dc)
  /\ (forall (before after : list string),
        mentions columnName dc = before ++ after ->
        columns dc =
          firstAppearances ∅ before ++
          firstAppearances (list_to_set before) after)
  /\ (forall first second rest,
        aliases = first :: second :: rest ->
        buildSelectColumns dc aliases =
          map (fun col => first +:+ "." +:+ col) (columns dc) ++
          map (fun col => second +:+ "." +:+ col) (columns dc) ++
          selectList rest (columns dc))
  /\ (forall q : SQLQuery,
        truthy (selectAllColumns this) = false ->
        buildSQLQuery this dc = Return q ->
        selectColumns q =
          selectList (extractTupleAliases dc) (columns dc)).
Proof.
  split_and!.
  - apply buildSelectColumns_selectList.
  - apply firstAppearances_NoDup.
  - intros col. unfold columns. rewrite firstAppearances_elem_of.
    rewrite elem_of_empty. tauto.
  - intros before after Hm. unfold columns.
    rewrite Hm, firstAppearances_app. do 2 f_equal.
    apply set_eq. intros y. rewrite elem_of_union, elem_of_empty. tauto.
  - intros first second rest ->.
    by rewrite buildSelectColumns_selectList.
  - intros q Hall Hq.
    destruct (buildSQLQuery_Return this dc q Hq) as (p & ps & Hps).
    rewrite (buildSQLQuery_cons this dc p ps Hps), Hall in Hq.
    injection Hq as <-. simpl. apply buildSelectColumns_selectList.
Qed.

End Select.

(** ** The tuple aliases *)

Section Aliases.
Import DCTranspiler.

Lemma le_neq_precedes (a b : string) :
  String.le a b -> a <> b -> precedes a b.
Proof.
  unfold String.le, String.leb, precedes. intros Hle Hne.
  destruct (String.compare a b) eqn:Hc; [|done|done].
  by apply String.compare_eq_iff in Hc.
Qed.

Lemma precedes_le (a b : string) : precedes a b -> String.le a b.
Proof. unfold String.le, String.leb, precedes. by intros ->. Qed.

Lemma StronglySorted_strict (l : list string) :
  StronglySorted String.le l -> NoDup l -> StronglySorted precedes l.
Proof.
  induction 1 as [|a l Hl IH Ha]; intros Hnd; constructor.
  - apply IH. by apply NoDup_cons in Hnd as [_ ?].
  - apply NoDup_cons in Hnd as [Hout _].
    apply Forall_forall. intros b Hb. apply le_neq_precedes.
    + rewrite Forall_forall in Ha. by apply Ha.
    + by intros ->.
Qed.

Lemma sort_elem_of (l : list string) (x : string) : x ∈ sort l <-> x ∈ l.
Proof. unfold sort. by rewrite merge_sort_Permutation. Qed.

Lemma sort_NoDup (l : list string) : NoDup l -> NoDup (sort l).
Proof. unfold sort. by rewrite merge_sort_Permutation. Qed.

Lemma sort_StronglySorted (l : list string) :
  StronglySorted String.le (sort l).
Proof. exact (StronglySorted_merge_sort String.le l). Qed.

Lemma extractTupleAliases_sort (dc : DenialConstraint) :
  extractTupleAliases dc =
    sort (firstAppearances ∅ (mentions tupleId dc)).
Proof. unfold extractTupleAliases. by rewrite (collected tupleId dc). Qed.

(** A list in ascending order without duplicates is determined by its
    members. *)
Lemma sorted_members_unique (l1 l2 : list string) :
  StronglySorted String.le l1 -> NoDup l1 ->
  StronglySorted String.le l2 -> NoDup l2 ->
  (forall x, x ∈ l1 <-> x ∈ l2) -> l1 = l2.
Proof.
  intros Hs1 Hn1 Hs2 Hn2 Hm.
  apply (StronglySorted_unique String.le); [done..|].
  by apply NoDup_Permutation.
Qed.

(** C5.  The tuple aliases are the distinct [tupleId]s of the left and
    right references of all predicates, each once, in ascending
    lexicographic order of the strings, not of the numbers: a
    constraint over t0, t1, t10 and t2 has them in the order
    t0, t1, t10, t2.  The FROM clause and the SELECT list of the
    query go through them in that order. *)
Theorem aliases_sorted_as_strings (this : TranspilerOptions)
    (dc : DenialConstraint) :
  StronglySorted precedes (extractTupleAliases dc)
  /\ NoDup (extractTupleAliases dc)
  /\ (forall alias,
        alias ∈ extractTupleAliases dc <-> alias ∈ mentions tupleId dc)
  /\ ((forall alias,
         alias ∈ mentions tupleId dc <->
         alias ∈ ["t0"; "t1"; "t10"; "t2"]) ->
      extractTupleAliases dc = ["t0"; "t1"; "t10"; "t2"])
  /\ extractTupleAliases fourAliases = ["t0"; "t1"; "t10"; "t2"]
  /\ (forall q : SQLQuery,
        buildSQLQuery this dc = Return q ->
        (exists p ps,
           predicates dc = p :: ps /\
           fromClause q =
             join ", "
                  (map (fun alias =>
                          cleanTableName (tableName (left p)) +:+ " "
                          +:+ alias)
                       (extractTupleAliases dc))) /\
        selectColumns q =
          if truthy (selectAllColumns this)
          then map (fun alias => alias +:+ ".*") (extractTupleAliases dc)
          else selectList (extractTupleAliases dc) (columns dc)).
Proof.
  assert (NoDup (extractTupleAliases dc)) as Hnd.
  { rewrite extractTupleAliases_sort.
    apply sort_NoDup, firstAppearances_NoDup. }
  assert (forall alias,
            alias ∈ extractTupleAliases dc <-> alias ∈ mentions tupleId dc)
    as Hmem.
  { intros alias. rewrite extractTupleAliases_sort, sort_elem_of.
    rewrite firstAppearances_elem_of, elem_of_empty. tauto. }
  assert (StronglySorted String.le (extractTupleAliases dc)) as Hle.
  { rewrite extractTupleAliases_sort. apply sort_StronglySorted. }
  split_and!; [by apply StronglySorted_strict|done|done| |done|].
  - intros Hfour. apply sorted_members_unique; [done..| | |].
    + replace ["t0"; "t1"; "t10"; "t2"]
        with (sort ["t0"; "t1"; "t10"; "t2"]) by (by vm_compute).
      apply sort_StronglySorted.
    + apply (bool_decide_unpack _). by vm_compute.
    + intros x. by rewrite Hmem, Hfour.
  - intros q Hq.
    destruct (buildSQLQuery_Return this dc q Hq) as (p & ps & Hps).
    rewrite (buildSQLQuery_cons this dc p ps Hps) in Hq.
    injection Hq as <-. simpl. split; [by exists p, ps|].
    destruct (truthy (selectAllColumns this)); [done|].
    apply buildSelectColumns_selectList.
Qed.

End Aliases.

(** ** From text to text *)

(** C1.  The airport constraint, parsed, validated and transpiled with
    [formatOutput] false and the other options left to their defaults,
    gives the statement on one line. *)
Theorem airport_on_one_line :
  DCParser.parse airportText = Return airport
  /\ DCParser.validate airport = Return true
  /\ DCTranspiler.transpile (DCTranspiler.new compact) airport =
       Return "SELECT t0.Country, t0.Timezone, t1.Country, t1.Timezone FROM airport t0, airport t1 WHERE t0.Country = t1.Country AND t0.Timezone != t1.Timezone;"
  /\ transpileDC airportText (Some compact) =
       Return "SELECT t0.Country, t0.Timezone, t1.Country, t1.Timezone FROM airport t0, airport t1 WHERE t0.Country = t1.Country AND t0.Timezone != t1.Timezone;".
Proof. split_and!; by vm_compute. Qed.

(** C4.  [parse] does not check that the predicates are over one table:
    the text over the tables A and B parses into a constraint of one
    predicate, and it is [validate], called on that constraint, that
    throws; so [transpileDC], which calls one after the other, throws
    the error of [validate]. *)
Theorem parse_leaves_tables_unchecked :
  DCParser.parse twoTablesText = Return twoTables
  /\ parseDC twoTablesText = Return twoTables
  /\ length (predicates twoTables) = 1
  /\ tableNames twoTables = {["A"; "B"]}
  /\ DCParser.validate twoTables = Throw (Error DCParser.severalTables)
  /\ WellFormednessError (Error DCParser.severalTables)
  /\ transpileDC twoTablesText None = Throw (Error DCParser.severalTables).
Proof.
  split_and!; try by vm_compute.
  by right.
Qed.

(** ** The comment block *)

Section Comment.
Import DCTranspiler.

(** With [includeComments] every text [formatSQL] returns starts with
    the comment block, whose second line has the two characters of
    the source's literal before the parenthesis, and then the
    predicates without their table names. *)
Lemma formatSQL_comment (this : TranspilerOptions) (q : SQLQuery)
    (dc : DenialConstraint) :
  truthy (includeComments this) = true ->
  exists statement,
    formatSQL this q dc =
      generatedFromSource +:+
      join " ^ " (map commentPredicate (predicates dc)) +:+ ")" +:+
      LF +:+ LF +:+ statement.
Proof.
  intros Hc. rewrite formatSQL_text, Hc. eexists.
  unfold commentBlock, generatedFromSource, commentNegation, negation,
    Grammar.notSign.
  rewrite !append_assoc. reflexivity.
Qed.

(** C9, on the airport constraint with [includeComments]: the text
    starts with the comment block, the predicates in it without their
    table names, but the parenthesis of its second line comes after
    U+00C2 and U+00AC, two characters, and not after U+00AC alone; and
    so does every text [formatSQL] returns with [includeComments]. *)
Theorem comment_negation_has_two_characters :
  transpile (new commented) airport =
    Return (generatedFromSource +:+
            "t0.Country == t1.Country ^ t0.Timezone <> t1.Timezone)" +:+
            LF +:+ LF +:+
            formattedStatement
              {| selectColumns :=
                   ["t0.Country"; "t0.Timezone";
                    "t1.Country"; "t1.Timezone"];
                 fromClause := "airport t0, airport t1";
                 whereConditions :=
                   ["t0.Country = t1.Country";
                    "t0.Timezone != t1.Timezone"] |})
  /\ (forall text,
        transpile (new commented) airport = Return text ->
        String.prefix generatedFromSource text = true /\
        String.prefix generatedFrom text = false /\
        String.get 56 text = Some "194"%char /\
        String.get 57 text = Some Grammar.notSign /\
        String.get 58 text = Some "("%char)
  /\ (forall this q dc,
        truthy (includeComments this) = true ->
        exists statement,
          formatSQL this q dc =
            generatedFromSource +:+
            join " ^ " (map commentPredicate (predicates dc)) +:+ ")" +:+
            LF +:+ LF +:+ statement).
Proof.
  split_and!; [by vm_compute| |apply formatSQL_comment].
  intros text Ht. vm_compute in Ht. injection Ht as <-.
  split_and!; by vm_compute.
Qed.

End Comment.

(** ** The text of a constraint and its references *)

Section Splitting.
Import Grammar.

Lemma hasDot_append (s1 s2 : string) :
  hasDot (s1 +:+ s2) = hasDot s1 || hasDot s2.
Proof.
  induction s1 as [|c s1 IH]; [done|].
  rewrite append_cons. simpl. by rewrite IH, orb_assoc.
Qed.

Lemma allChars_append (f : ascii -> bool) (s1 s2 : string) :
  allChars f (s1 +:+ s2) = allChars f s1 && allChars f s2.
Proof.
  induction s1 as [|c s1 IH]; [done|].
  rewrite append_cons. simpl. by rewrite IH, andb_assoc.
Qed.

Lemma splitLastDot_None (s : string) :
  splitLastDot s = None <-> hasDot s = false.
Proof.
  induction s as [|c s IH]; simpl; [done|].
  destruct (splitLastDot s) as [[a b]|].
  - split; [done|]. intros [_ Hs]%orb_false_iff.
    by apply IH in Hs.
  - destruct (Ascii.eqb c "."); [done|]. simpl. by rewrite <- IH.
Qed.

Lemma splitLastDot_append (a b : string) :
  hasDot b = false -> splitLastDot (a +:+ "." +:+ b) = Some (a, b).
Proof.
  intros Hb. induction a as [|c a IH].
  - change ("" +:+ "." +:+ b) with (String "." b). simpl.
    by apply splitLastDot_None in Hb as ->.
  - rewrite append_cons. simpl. by rewrite IH.
Qed.

Lemma splitLastDot_Some (s a b : string) :
  splitLastDot s = Some (a, b) ->
  s = a +:+ "." +:+ b /\ hasDot b = false.
Proof.
  revert a. induction s as [|c s IH]; intros a; simpl; [done|].
  destruct (splitLastDot s) as [[a' b']|] eqn:Hs.
  - intros [= <- <-]. by destruct (IH a' eq_refl) as [-> Hb'].
  - destruct (Ascii.eqb_spec c ".") as [->|Hc]; [|done].
    intros [= <- <-]. split; [done|]. by apply splitLastDot_None.
Qed.

Lemma segments_append (a b : string) :
  segments (a +:+ "." +:+ b) =
    match segments b with
    | [] => segments a
    | _ :: _ => segments a ++ segments b
    end.
Proof.
  assert (forall s, segments s <> []) as Hne.
  { intros [|c s]; simpl; [done|].
    destruct (Ascii.eqb c "."); [done|]. by destruct (segments s). }
  destruct (segments b) as [|seg segs] eqn:Hb; [by destruct (Hne b)|].
  induction a as [|c a IH].
  - change ("" +:+ "." +:+ b) with (String "." b). simpl. by rewrite Hb.
  - rewrite append_cons. simpl. rewrite IH.
    destruct (Ascii.eqb c "."); [done|].
    destruct (segments a) as [|sa sas] eqn:Ha; [by destruct (Hne a)|done].
Qed.

Lemma segments_no_dot (s : string) : hasDot s = false -> segments s = [s].
Proof.
  induction s as [|c s IH]; simpl; [done|].
  intros [-> Hs]%orb_false_iff. by rewrite (IH Hs).
Qed.

End Splitting.

Section Names.
Import Grammar.

Lemma isDigit_isNameChar (c : ascii) : isDigit c = true -> isNameChar c = true.
Proof.
  intros Hc. unfold isNameChar. rewrite Hc. by rewrite orb_true_r.
Qed.

Lemma isDigit_not_dot (c : ascii) :
  isDigit c = true -> Ascii.eqb c "."%char = false.
Proof.
  intros Hc. destruct (Ascii.eqb_spec c ".") as [->|]; [|done].
  by vm_compute in Hc.
Qed.

Lemma digits_name (ds : string) :
  allChars isDigit ds = true ->
  allChars isNameChar ds = true /\ hasDot ds = false.
Proof.
  induction ds as [|c ds IH]; simpl; [done|].
  intros [Hc Hds]%andb_true_iff. destruct (IH Hds) as [-> ->].
  by rewrite (isDigit_isNameChar c Hc), (isDigit_not_dot c Hc).
Qed.

Lemma isTupleId_shape (tid : string) :
  isTupleId tid = true ->
  (exists ds, tid = String "t" ds) /\
  allChars isNameChar tid = true /\ hasDot tid = false.
Proof.
  destruct tid as [|c ds]; simpl; [done|].
  intros [[Hc _]%andb_true_iff Hds]%andb_true_iff.
  apply Ascii.eqb_eq in Hc as ->.
  destruct (digits_name ds Hds) as [Hn Hd].
  split; [by eexists|]. simpl. by rewrite Hn, Hd.
Qed.

Lemma isName_shape (s : string) :
  isName s = true -> s <> "" /\ allChars isNameChar s = true.
Proof.
  unfold isName. intros [Hne Hs]%andb_true_iff. split; [|done].
  intros ->. done.
Qed.

Lemma validRef_shape (r : TupleReference) :
  validRef r = true ->
  isTupleId (tupleId r) = true /\
  (tableName r <> "" /\ allChars isNameChar (tableName r) = true) /\
  (columnName r <> "" /\ allChars isNameChar (columnName r) = true) /\
  hasDot (columnName r) = false.
Proof.
  unfold validRef.
  intros [[[Hid Ht]%andb_true_iff Hc]%andb_true_iff Hd]%andb_true_iff.
  split_and!; try done.
  - by apply isName_shape.
  - by apply isName_shape.
  - by apply isName_shape.
  - by apply isName_shape.
  - by apply negb_true_iff.
Qed.

End Names.

Section Eval.
Import Grammar DCParser.

Lemma join_restText (p : Predicate) (ps : list Predicate) (rest : string) :
  join "^" (map predicateText (p :: ps)) +:+ rest
  = predicateText p +:+ restText ps rest.
Proof.
  revert p. induction ps as [|p' ps IH]; intros p; [done|].
  change (join "^" (map predicateText (p :: p' :: ps)))
    with (predicateText p +:+ "^" +:+
          join "^" (map predicateText (p' :: ps))).
  rewrite !append_assoc, IH. done.
Qed.

Lemma evalPredicateList_map (n : PredicateListNode) :
  evalPredicateList n =
    evalPredicate (firstPredicate n) :: map evalPredicate (restPredicates n).
Proof.
  unfold evalPredicateList. by rewrite foldl_push.
Qed.

Lemma evalPredicate_nodeOfPredicate (p : Predicate) :
  evalPredicate (nodeOfPredicate p) = p.
Proof. by destruct p as [[] ? []]. Qed.

Lemma segments_refText (tid table column : string) :
  hasDot tid = false -> hasDot column = false ->
  segments (tid +:+ "." +:+ table +:+ "." +:+ column)
  = tid :: segments table ++ [column].
Proof.
  intros Ht Hc. rewrite segments_append, segments_append.
  rewrite (segments_no_dot _ Ht), (segments_no_dot _ Hc).
  by destruct (segments table).
Qed.

End Eval.

(** ** Whitespace, references and constraints as the grammar reads them *)

Section Runs.
Import Grammar DCParser.

Lemma run_append (f : ascii -> bool) (s rest : string) :
  allChars f s = true ->
  match rest with "" => true | String c _ => negb (f c) end = true ->
  run f (s +:+ rest) = (s, rest).
Proof.
  intros Hs Hrest. induction s as [|c s IH].
  - rewrite append_nil_l. destruct rest as [|c rest]; [done|].
    simpl in *. by apply negb_true_iff in Hrest as ->.
  - rewrite append_cons. simpl in *.
    apply andb_true_iff in Hs as [-> Hs]. by rewrite (IH Hs).
Qed.

Lemma run_spec (f : ascii -> bool) (s r rest : string) :
  run f s = (r, rest) ->
  s = r +:+ rest /\ allChars f r = true /\
  match rest with "" => true | String c _ => negb (f c) end = true.
Proof.
  revert r. induction s as [|c s IH]; intros r; simpl.
  - by intros [= <- <-].
  - destruct (f c) eqn:Hc.
    + destruct (run f s) as [r' rest']. intros [= <- <-].
      destruct (IH r' eq_refl) as (-> & Hr & Hrest).
      split_and!; [done| |done]. simpl. by rewrite Hc, Hr.
    + intros [= <- <-]. split_and!; [done..|]. simpl. by rewrite Hc.
Qed.

Lemma isNameChar_not_space (c : ascii) :
  isNameChar c = true -> Ascii.is_space c = false.
Proof.
  destruct c as [[] [] [] [] [] [] [] []]; vm_compute; done.
Qed.

Lemma isDigit_not_space (c : ascii) :
  isDigit c = true -> Ascii.is_space c = false.
Proof. intros Hc. by apply isNameChar_not_space, isDigit_isNameChar. Qed.

Lemma is_space_not_dot (c : ascii) :
  Ascii.is_space c = true -> Ascii.eqb c "."%char = false.
Proof.
  intros Hc. destruct (Ascii.eqb_spec c ".") as [->|]; [|done].
  by vm_compute in Hc.
Qed.

Lemma isSpaces_hasDot (w : string) : isSpaces w = true -> hasDot w = false.
Proof.
  unfold isSpaces. induction w as [|c w IH]; simpl; [done|].
  intros [Hc Hw]%andb_true_iff. by rewrite (is_space_not_dot c Hc), (IH Hw).
Qed.

Lemma isSpaces_isRefChar (w : string) :
  isSpaces w = true -> allChars isRefChar w = true.
Proof.
  unfold isSpaces, isRefChar. induction w as [|c w IH]; simpl; [done|].
  intros [-> Hw]%andb_true_iff. by rewrite orb_true_r, (IH Hw).
Qed.

Lemma names_isRefChar (s : string) :
  allChars isNameChar s = true -> allChars isRefChar s = true.
Proof.
  unfold isRefChar. induction s as [|c s IH]; simpl; [done|].
  intros [-> Hs]%andb_true_iff. by rewrite (IH Hs).
Qed.

Lemma skipSpaces_spaces (w s : string) :
  isSpaces w = true -> skipSpaces (w +:+ s) = skipSpaces s.
Proof.
  unfold isSpaces. induction w as [|c w IH]; [done|].
  rewrite append_cons. simpl. intros [-> Hw]%andb_true_iff. by apply IH.
Qed.

Lemma skipSpaces_spec (s : string) :
  exists w, isSpaces w = true /\ s = w +:+ skipSpaces s /\
            match skipSpaces s with
            | "" => true
            | String c _ => negb (Ascii.is_space c)
            end = true.
Proof.
  induction s as [|c s (w & Hw & Hs & Hfirst)]; simpl.
  - by exists "".
  - destruct (Ascii.is_space c) eqn:Hc.
    + exists (String c w). unfold isSpaces in *. simpl.
      rewrite Hc, Hw, append_cons, <- Hs. done.
    + exists "". simpl. by rewrite Hc.
Qed.

Lemma skipSpaces_name (s rest : string) :
  isQualifiedName s = true -> skipSpaces (s +:+ rest) = s +:+ rest.
Proof.
  unfold isQualifiedName. destruct s as [|c s]; [done|]. simpl.
  intros [Hc _]%andb_true_iff. rewrite append_cons. simpl.
  by rewrite (isNameChar_not_space c Hc).
Qed.

Lemma dropTrailingSpaces_spaces (w : string) :
  isSpaces w = true -> dropTrailingSpaces w = "".
Proof.
  unfold isSpaces. induction w as [|c w IH]; simpl; [done|].
  intros [-> Hw]%andb_true_iff. by rewrite (IH Hw).
Qed.

Lemma dropTrailingSpaces_name (s w : string) :
  allChars isNameChar s = true -> isSpaces w = true ->
  dropTrailingSpaces (s +:+ w) = s.
Proof.
  intros Hs Hw. induction s as [|c s IH].
  - rewrite append_nil_l. by apply dropTrailingSpaces_spaces.
  - rewrite append_cons. simpl in *.
    apply andb_true_iff in Hs as [Hc Hs].
    by rewrite (IH Hs), (isNameChar_not_space c Hc).
Qed.

Lemma dropTrailingSpaces_spec (s : string) :
  exists w, isSpaces w = true /\ s = dropTrailingSpaces s +:+ w.
Proof.
  induction s as [|c s (w & Hw & Hs)]; simpl.
  - by exists "".
  - destruct (Ascii.is_space c) eqn:Hc; simpl.
    + destruct (String.eqb_spec (dropTrailingSpaces s) "") as [He|_].
      * exists (String c w). unfold isSpaces in *. simpl.
        rewrite Hc, Hw. split; [done|].
        rewrite He, append_nil_l in Hs. by rewrite <- Hs.
      * exists w. split; [done|]. by rewrite append_cons, <- Hs.
    + exists w. split; [done|]. by rewrite append_cons, <- Hs.
Qed.

Lemma trim_name (w1 s w2 : string) :
  isQualifiedName s = true -> isSpaces w1 = true -> isSpaces w2 = true ->
  trim (w1 +:+ s +:+ w2) = s.
Proof.
  intros Hs Hw1 Hw2. unfold trim.
  rewrite (skipSpaces_spaces _ _ Hw1), (skipSpaces_name _ _ Hs).
  apply dropTrailingSpaces_name; [|done].
  unfold isQualifiedName in Hs. by apply andb_true_iff in Hs as [_ ?].
Qed.

Lemma trim_spec (s : string) :
  exists w1 w2, isSpaces w1 = true /\ isSpaces w2 = true /\
                s = w1 +:+ trim s +:+ w2.
Proof.
  destruct (skipSpaces_spec s) as (w1 & Hw1 & Hs & _).
  destruct (dropTrailingSpaces_spec (skipSpaces s)) as (w2 & Hw2 & Hs').
  exists w1, w2. split_and!; [done..|]. unfold trim.
  by rewrite <- Hs', <- Hs.
Qed.

Lemma removeSpaces_append (s1 s2 : string) :
  removeSpaces (s1 +:+ s2) = removeSpaces s1 +:+ removeSpaces s2.
Proof.
  induction s1 as [|c s1 IH]; [done|].
  rewrite append_cons. simpl. destruct (Ascii.is_space c); [done|].
  by rewrite append_cons, IH.
Qed.

Lemma removeSpaces_spaces (w : string) :
  isSpaces w = true -> removeSpaces w = "".
Proof.
  unfold isSpaces. induction w as [|c w IH]; simpl; [done|].
  intros [-> Hw]%andb_true_iff. by apply IH.
Qed.

Lemma removeSpaces_name (s : string) :
  allChars isNameChar s = true -> removeSpaces s = s.
Proof.
  induction s as [|c s IH]; simpl; [done|].
  intros [Hc Hs]%andb_true_iff.
  by rewrite (isNameChar_not_space c Hc), (IH Hs).
Qed.

Lemma removeSpaces_skipSpaces (s : string) :
  removeSpaces (skipSpaces s) = removeSpaces s.
Proof.
  induction s as [|c s IH]; simpl; [done|].
  destruct (Ascii.is_space c) eqn:Hc; [done|]. simpl. by rewrite Hc.
Qed.

End Runs.
Section References.
Import Grammar DCParser.

Lemma parseIdentifier_append (tid rest : string) :
  isTupleId tid = true ->
  match rest with "" => true | String c _ => negb (isDigit c) end = true ->
  parseIdentifier (tid +:+ rest) = Some (tid, rest).
Proof.
  destruct tid as [|c ds]; [done|]. unfold isTupleId.
  intros [[Hc Hne]%andb_true_iff Hds]%andb_true_iff Hrest.
  rewrite append_cons. simpl. rewrite Hc.
  rewrite (run_append isDigit ds rest Hds Hrest).
  by apply negb_true_iff in Hne as ->.
Qed.

Lemma parseIdentifier_Some (s tid rest : string) :
  parseIdentifier s = Some (tid, rest) ->
  s = tid +:+ rest /\ isTupleId tid = true.
Proof.
  destruct s as [|c s]; simpl; [done|].
  destruct (Ascii.eqb c "t") eqn:Hc; [|done].
  destruct (run isDigit s) as [ds rest'] eqn:Hrun.
  destruct (String.eqb ds "") eqn:Hne; [done|]. intros [= <- <-].
  apply run_spec in Hrun as (-> & Hds & _).
  split; [done|]. simpl. by rewrite Hc, Hne, Hds.
Qed.

Lemma spaces_or_dot_not_digit (w rest : string) :
  isSpaces w = true ->
  match w +:+ String "." rest with
  | "" => true
  | String c _ => negb (isDigit c)
  end = true.
Proof.
  destruct w as [|c w]; [done|]. unfold isSpaces. simpl.
  intros [Hc _]%andb_true_iff. rewrite ?append_cons.
  destruct (isDigit c) eqn:Hd; [|done].
  by rewrite (isDigit_not_space c Hd) in Hc.
Qed.

(** Every reference with whitespace around its dots is read, and split
    at its last dot. *)
Lemma parseTupleRef_spaced (r : TupleReference) (w1 w2 w3 w4 w5 rest : string) :
  validRef r = true ->
  isSpaces w1 = true -> isSpaces w2 = true -> isSpaces w3 = true ->
  isSpaces w4 = true -> isSpaces w5 = true -> ends rest = true ->
  parseTupleRef (spacedRefText w1 w2 w3 w4 r +:+ w5 +:+ rest)
  = Some (nodeOfRef r, rest).
Proof.
  intros Hr H1 H2 H3 H4 H5 Hrest.
  pose proof Hr as (Hid & [Ht Htn] & [Hc Hcn] & Hd)%validRef_shape.
  assert (isQualifiedName (tableName r) = true) as Hqt.
  { unfold isQualifiedName. rewrite Htn.
    by apply String.eqb_neq in Ht as ->. }
  assert (isQualifiedName (columnName r) = true) as Hqc.
  { unfold isQualifiedName. rewrite Hcn.
    by apply String.eqb_neq in Hc as ->. }
  unfold parseTupleRef, spacedRefText. rewrite !append_assoc.
  rewrite (parseIdentifier_append _ _ Hid)
    by (by apply spaces_or_dot_not_digit).
  simpl. rewrite (skipSpaces_spaces _ _ H1).
  change (skipSpaces ("." +:+ ?s)) with (String "."%char s).
  cbv iota beta. rewrite Ascii.eqb_refl.
  rewrite (skipSpaces_spaces _ _ H2).
  rewrite (skipSpaces_name _ _ Hqt).
  replace (tableName r +:+ w3 +:+ "." +:+ w4 +:+ columnName r +:+ w5 +:+ rest)
    with ((tableName r +:+ w3 +:+ "." +:+ w4 +:+ columnName r +:+ w5)
          +:+ rest) by (by rewrite !append_assoc).
  rewrite (run_append isRefChar).
  - rewrite <- (append_assoc (tableName r) w3).
    rewrite splitLastDot_append.
    + simpl.
      rewrite (trim_name "" (tableName r) w3 Hqt eq_refl H3
               : trim (tableName r +:+ w3) = tableName r).
      rewrite (trim_name w4 (columnName r) w5 Hqc H4 H5).
      by rewrite Hqt, Hqc.
    + rewrite !hasDot_append, Hd.
      by rewrite (isSpaces_hasDot _ H4), (isSpaces_hasDot _ H5).
  - rewrite !allChars_append.
    rewrite (names_isRefChar _ Htn), (names_isRefChar _ Hcn).
    by rewrite (isSpaces_isRefChar _ H3), (isSpaces_isRefChar _ H4),
      (isSpaces_isRefChar _ H5).
  - done.
Qed.

(** Whatever [parseTupleRef] reads is such a reference. *)
Lemma parseTupleRef_Some (s rest : string) (n : TupleRefNode) :
  parseTupleRef s = Some (n, rest) ->
  validRef (evalTupleRef n) = true /\
  ends rest = true /\
  exists w1 w2 w3 w4 w5,
    isSpaces w1 = true /\ isSpaces w2 = true /\ isSpaces w3 = true /\
    isSpaces w4 = true /\ isSpaces w5 = true /\
    s = spacedRefText w1 w2 w3 w4 (evalTupleRef n) +:+ w5 +:+ rest.
Proof.
  unfold parseTupleRef.
  destruct (parseIdentifier s) as [[tid s1]|] eqn:Hid; [|done]. simpl.
  apply parseIdentifier_Some in Hid as [-> Hid].
  destruct (skipSpaces_spec s1) as (w1 & Hw1 & Hs1 & _).
  destruct (skipSpaces s1) as [|c s2]; [done|].
  destruct (Ascii.eqb_spec c ".") as [->|]; [|done].
  destruct (skipSpaces_spec s2) as (w2 & Hw2 & Hs2 & _).
  destruct (run isRefChar (skipSpaces s2)) as [names rest'] eqn:Hrun.
  apply run_spec in Hrun as (Hnames & _ & Hends).
  destruct (splitLastDot names) as [[before after]|] eqn:Hsplit; [|done].
  simpl. apply splitLastDot_Some in Hsplit as [-> Hafter].
  destruct (isQualifiedName (trim before)) eqn:Hqt; [|done].
  destruct (isQualifiedName (trim after)) eqn:Hqc; [|done]. simpl.
  intros [= <- <-].
  destruct (trim_spec before) as (w2' & w3 & Hw2' & Hw3 & Hbefore).
  destruct (trim_spec after) as (w4 & w5 & Hw4 & Hw5 & Hafter').
  assert (hasDot (trim after) = false) as Hd.
  { rewrite Hafter', !hasDot_append in Hafter.
    by apply orb_false_iff in Hafter as [_ [? _]%orb_false_iff]. }
  split_and!.
  - unfold validRef, isName. simpl. unfold isQualifiedName in Hqt, Hqc.
    by rewrite Hid, Hd, Hqt, Hqc.
  - done.
  - exists w1, (w2 +:+ w2'), w3, w4, w5. unfold isSpaces in *.
    rewrite allChars_append, Hw2, Hw2'. split_and!; [done..|].
    unfold spacedRefText. simpl.
    rewrite Hs1, Hs2, Hnames. rewrite Hbefore at 1. rewrite Hafter' at 1.
    by rewrite !append_assoc.
Qed.

End References.
Section Predicates.
Import Grammar DCParser.

Lemma parseOperator_Some (s rest : string) (op : ComparisonOperator) :
  parseOperator s = Some (op, rest) -> s = operatorText op +:+ rest.
Proof.
  destruct s as [|c s]; [done|].
  destruct c as [[] [] [] [] [] [] [] []]; try done;
    (destruct s as [|c' s]; [by intros [= <- <-]|]);
    destruct c' as [[] [] [] [] [] [] [] []]; by intros [= <- <-].
Qed.

Lemma parseOperator_text (op : ComparisonOperator) (c : ascii)
    (rest : string) :
  Ascii.eqb c "="%char = false -> Ascii.eqb c ">"%char = false ->
  parseOperator (operatorText op +:+ String c rest)
  = Some (op, String c rest).
Proof.
  intros He Hg. destruct op; try done;
    destruct c as [[] [] [] [] [] [] [] []]; done.
Qed.

Lemma spacedRefText_starts (w1 w2 w3 w4 : string) (r : TupleReference) :
  validRef r = true -> exists s, spacedRefText w1 w2 w3 w4 r = String "t" s.
Proof.
  intros (Hid & _)%validRef_shape.
  destruct (isTupleId_shape _ Hid) as ([ds Hds] & _).
  unfold spacedRefText. rewrite Hds, append_cons. by eexists.
Qed.

(** What comes after [w], made of whitespace, and before a reference. *)
Lemma spaces_then_t (w s : string) :
  isSpaces w = true ->
  exists c r, w +:+ String "t" s = String c r /\
              Ascii.eqb c "="%char = false /\ Ascii.eqb c ">"%char = false.
Proof.
  destruct w as [|c w]; [by eexists _, _|].
  unfold isSpaces. simpl. intros [Hc _]%andb_true_iff.
  exists c, (w +:+ String "t" s). split; [done|].
  split.
  - destruct (Ascii.eqb_spec c "=") as [->|]; [by vm_compute in Hc|done].
  - destruct (Ascii.eqb_spec c ">") as [->|]; [by vm_compute in Hc|done].
Qed.

Lemma operatorText_ends (op : ComparisonOperator) (s : string) :
  ends (operatorText op +:+ s) = true /\
  skipSpaces (operatorText op +:+ s) = operatorText op +:+ s.
Proof. by destruct op. Qed.

Lemma parsePredicate_spaced (w0 w : string) (p : Predicate) (rest : string) :
  validPredicate p = true -> isSpaces w0 = true -> isSpaces w = true ->
  ends rest = true ->
  parsePredicate (w0 +:+ spacedPredicateText w p +:+ w +:+ rest)
  = Some (nodeOfPredicate p, rest).
Proof.
  intros [Hl Hr]%andb_true_iff Hw0 Hw Hrest.
  destruct (spacedRefText_starts w w w w _ Hl) as [sl Hsl].
  destruct (spacedRefText_starts w w w w _ Hr) as [sr Hsr].
  unfold parsePredicate, spacedPredicateText.
  rewrite (skipSpaces_spaces _ _ Hw0), !append_assoc.
  replace (skipSpaces (spacedRefText w w w w (left p) +:+ w +:+
                       operatorText (operator p) +:+ w +:+
                       spacedRefText w w w w (right p) +:+ w +:+ rest))
    with (spacedRefText w w w w (left p) +:+ w +:+
          operatorText (operator p) +:+ w +:+
          spacedRefText w w w w (right p) +:+ w +:+ rest)
    by (by rewrite Hsl).
  rewrite (parseTupleRef_spaced _ w w w w w _ Hl)
    by (done || apply operatorText_ends).
  simpl. rewrite (proj2 (operatorText_ends _ _)).
  destruct (spaces_then_t w (sr +:+ w +:+ rest) Hw) as (c & r & Hcr & He & Hg).
  rewrite Hsr, append_cons, Hcr, (parseOperator_text _ c r He Hg).
  rewrite <- Hcr. simpl. rewrite (skipSpaces_spaces _ _ Hw).
  replace (skipSpaces (String "t" (sr +:+ w +:+ rest)))
    with (String "t" (sr +:+ w +:+ rest)) by done.
  rewrite <- append_cons, <- Hsr.
  by rewrite (parseTupleRef_spaced _ w w w w w _ Hr).
Qed.

Lemma spacedRestText_ends (w : string) (ps : list Predicate)
    (rest : string) :
  ends (spacedRestText w ps (String ")" rest)) = true.
Proof. by destruct ps. Qed.

Lemma spacedRestText_length (w : string) (ps : list Predicate)
    (rest : string) :
  length ps <= String.length (spacedRestText w ps rest).
Proof.
  induction ps as [|p ps IH]; simpl; [lia|].
  rewrite ?append_cons, ?append_nil_l, !length_append. lia.
Qed.

Lemma parseRest_spaced (w : string) (ps : list Predicate) (fuel : nat)
    (rest : string) :
  isSpaces w = true ->
  forallb validPredicate ps = true -> length ps <= fuel ->
  parseRest fuel (spacedRestText w ps (String ")" rest))
  = Some (map nodeOfPredicate ps, String ")" rest).
Proof.
  intros Hw. revert fuel. induction ps as [|p ps IH]; intros fuel Hps Hfuel.
  - by destruct fuel.
  - simpl in Hps. apply andb_true_iff in Hps as [Hp Hps].
    destruct fuel as [|fuel]; [simpl in Hfuel; lia|].
    simpl spacedRestText. rewrite append_cons, append_nil_l.
    change (parseRest (S fuel) (String "^" ?s))
      with ('(n, s2) ← parsePredicate s;
            '(ns, s3) ← parseRest fuel s2; Some (n :: ns, s3)).
    rewrite (parsePredicate_spaced w w p _ Hp Hw Hw)
      by apply spacedRestText_ends.
    simpl. rewrite IH; [done|done|simpl in Hfuel; lia].
Qed.

Lemma join_spacedRestText (w : string) (p : Predicate)
    (ps : list Predicate) (rest : string) :
  join (w +:+ "^" +:+ w) (map (spacedPredicateText w) (p :: ps)) +:+ w +:+
  rest
  = spacedPredicateText w p +:+ w +:+ spacedRestText w ps rest.
Proof.
  revert p. induction ps as [|p' ps IH]; intros p; [done|].
  change (join (w +:+ "^" +:+ w)
               (map (spacedPredicateText w) (p :: p' :: ps)))
    with (spacedPredicateText w p +:+ (w +:+ "^" +:+ w) +:+
          join (w +:+ "^" +:+ w) (map (spacedPredicateText w) (p' :: ps))).
  rewrite !append_assoc, IH. simpl. by rewrite ?append_assoc.
Qed.

Lemma match_spaced (w : string) (p : Predicate) (ps : list Predicate) :
  isSpaces w = true ->
  forallb validPredicate (p :: ps) = true ->
  match_ (spacedConstraintText w {| predicates := p :: ps |})
  = Some {| firstPredicate := nodeOfPredicate p;
            restPredicates := map nodeOfPredicate ps |}.
Proof.
  intros Hw. simpl. intros [Hp Hps]%andb_true_iff.
  unfold spacedConstraintText, negation. simpl predicates.
  rewrite join_spacedRestText.
  unfold match_. rewrite (skipSpaces_spaces _ _ Hw).
  rewrite append_cons, append_nil_l.
  change (skipSpaces (String notSign ?s)) with (String notSign s).
  cbv iota beta. rewrite Ascii.eqb_refl.
  rewrite (skipSpaces_spaces _ _ Hw), append_cons, append_nil_l.
  change (skipSpaces (String "(" ?s)) with (String "(" s). cbv iota beta.
  rewrite append_cons, append_nil_l.
  rewrite (parsePredicate_spaced w w p _ Hp Hw Hw)
    by apply spacedRestText_ends.
  simpl.
  rewrite (parseRest_spaced w ps _ w Hw Hps)
    by apply spacedRestText_length.
  simpl. rewrite <- (append_nil_r w), (skipSpaces_spaces _ _ Hw). done.
Qed.

End Predicates.

Section Soundness.
Import Grammar DCParser.

Lemma removeSpaces_spacedRefText (w1 w2 w3 w4 : string)
    (r : TupleReference) :
  validRef r = true ->
  isSpaces w1 = true -> isSpaces w2 = true -> isSpaces w3 = true ->
  isSpaces w4 = true ->
  removeSpaces (spacedRefText w1 w2 w3 w4 r) = refText r.
Proof.
  intros (Hid & [_ Ht] & [_ Hc] & _)%validRef_shape H1 H2 H3 H4.
  destruct (isTupleId_shape _ Hid) as (_ & Hidn & _).
  unfold spacedRefText, refText. rewrite !removeSpaces_append.
  rewrite (removeSpaces_name _ Hidn), (removeSpaces_name _ Ht),
    (removeSpaces_name _ Hc).
  by rewrite (removeSpaces_spaces _ H1), (removeSpaces_spaces _ H2),
    (removeSpaces_spaces _ H3), (removeSpaces_spaces _ H4).
Qed.

Lemma parseTupleRef_removeSpaces (s rest : string) (n : TupleRefNode) :
  parseTupleRef s = Some (n, rest) ->
  validRef (evalTupleRef n) = true /\
  removeSpaces s = refText (evalTupleRef n) +:+ removeSpaces rest.
Proof.
  intros (Hv & _ & w1 & w2 & w3 & w4 & w5 & H1 & H2 & H3 & H4 & H5 & ->)
    %parseTupleRef_Some.
  split; [done|]. rewrite !removeSpaces_append.
  rewrite (removeSpaces_spacedRefText _ _ _ _ _ Hv H1 H2 H3 H4).
  by rewrite (removeSpaces_spaces _ H5).
Qed.

Lemma removeSpaces_operatorText (op : ComparisonOperator) :
  removeSpaces (operatorText op) = operatorText op.
Proof. by destruct op. Qed.

Lemma parsePredicate_removeSpaces (s rest : string) (n : PredicateNode) :
  parsePredicate s = Some (n, rest) ->
  validPredicate (evalPredicate n) = true /\
  removeSpaces s =
    predicateText (evalPredicate n) +:+ removeSpaces rest.
Proof.
  unfold parsePredicate.
  destruct (parseTupleRef (skipSpaces s)) as [[l s1]|] eqn:H1; [|done].
  simpl.
  destruct (parseOperator (skipSpaces s1)) as [[op s2]|] eqn:H2; [|done].
  simpl.
  destruct (parseTupleRef (skipSpaces s2)) as [[r s3]|] eqn:H3; [|done].
  simpl. intros [= <- <-].
  apply parseTupleRef_removeSpaces in H1 as [Hl H1].
  apply parseTupleRef_removeSpaces in H3 as [Hr H3].
  apply parseOperator_Some in H2.
  apply (f_equal removeSpaces) in H2.
  rewrite removeSpaces_append, removeSpaces_operatorText in H2.
  rewrite removeSpaces_skipSpaces in H1, H2, H3.
  split.
  - unfold validPredicate. simpl. by rewrite Hl, Hr.
  - unfold predicateText. simpl. by rewrite H1, H2, H3, !append_assoc.
Qed.

Lemma skipSpaces_length (s : string) :
  String.length (skipSpaces s) <= String.length s.
Proof.
  induction s as [|c s IH]; simpl; [done|].
  destruct (Ascii.is_space c); simpl; lia.
Qed.

Lemma parseTupleRef_length (s rest : string) (n : TupleRefNode) :
  parseTupleRef s = Some (n, rest) -> String.length rest <= String.length s.
Proof.
  intros (_ & _ & w1 & w2 & w3 & w4 & w5 & _ & _ & _ & _ & _ & ->)
    %parseTupleRef_Some.
  rewrite !length_append. lia.
Qed.

Lemma parseOperator_length (s rest : string) (op : ComparisonOperator) :
  parseOperator s = Some (op, rest) -> String.length rest < String.length s.
Proof.
  intros ->%parseOperator_Some. rewrite length_append.
  destruct op; simpl; lia.
Qed.

Lemma parsePredicate_length (s rest : string) (p : PredicateNode) :
  parsePredicate s = Some (p, rest) -> String.length rest < String.length s.
Proof.
  unfold parsePredicate.
  destruct (parseTupleRef (skipSpaces s)) as [[l s1]|] eqn:H1; [|done].
  simpl.
  destruct (parseOperator (skipSpaces s1)) as [[op s2]|] eqn:H2; [|done].
  simpl.
  destruct (parseTupleRef (skipSpaces s2)) as [[r s3]|] eqn:H3; [|done].
  simpl. intros [= _ <-].
  apply parseTupleRef_length in H1, H3. apply parseOperator_length in H2.
  pose proof (skipSpaces_length s). pose proof (skipSpaces_length s1).
  pose proof (skipSpaces_length s2). lia.
Qed.

Lemma parseRest_unfold (fuel : nat) (s : string) :
  parseRest fuel s =
    match skipSpaces s with
    | "" => Some ([], "")
    | String c s1 =>
        if Ascii.eqb c "^"%char then
          match fuel with
          | O => None
          | S fuel' =>
              '(p, s2) ← parsePredicate s1;
              '(ps, s3) ← parseRest fuel' s2;
              Some (p :: ps, s3)
          end
        else Some ([], String c s1)
    end.
Proof.
  destruct fuel; simpl;
    destruct (skipSpaces s) as [|[[] [] [] [] [] [] [] []] s1]; reflexivity.
Qed.

(** The bound of [parseRest] is never what stops it: with the length of
    the text, or more, it returns what it returns with any larger bound. *)
Lemma parseRest_fuel (fuel fuel' : nat) (s : string) :
  String.length s <= fuel -> String.length s <= fuel' ->
  parseRest fuel s = parseRest fuel' s.
Proof.
  revert fuel' s. induction fuel as [|fuel IH]; intros fuel' s Hf Hf';
    rewrite (parseRest_unfold _ s), (parseRest_unfold fuel' s);
    pose proof (skipSpaces_length s) as Hs;
    destruct (skipSpaces s) as [|c s1]; [done| |done|].
  - simpl in Hs. lia.
  - destruct (Ascii.eqb c "^"); [|done].
    destruct fuel' as [|fuel']; [simpl in Hs; lia|].
    destruct (parsePredicate s1) as [[p s2]|] eqn:Hp; [|done]. simpl.
    apply parsePredicate_length in Hp. simpl in Hs.
    rewrite (IH fuel' s2); [done|lia|lia].
Qed.

Lemma parseRest_removeSpaces (fuel : nat) (s rest : string)
    (ns : list PredicateNode) :
  parseRest fuel s = Some (ns, rest) ->
  forallb validPredicate (map evalPredicate ns) = true /\
  removeSpaces s =
    restText (map evalPredicate ns) (removeSpaces rest).
Proof.
  revert s ns. induction fuel as [|fuel IH]; intros s ns;
    rewrite parseRest_unfold, <- (removeSpaces_skipSpaces s);
    destruct (skipSpaces s) as [|c s1]; try (by intros [= <- <-]);
    destruct (Ascii.eqb_spec c "^") as [->|_];
    try done; try (by intros [= <- <-]).
  destruct (parsePredicate s1) as [[p s2]|] eqn:Hp; [|done]. simpl.
  destruct (parseRest fuel s2) as [[ps s3]|] eqn:Hps; [|done]. simpl.
  intros [= <- <-].
  apply parsePredicate_removeSpaces in Hp as [Hv Hp].
  apply IH in Hps as [Hvs Hps]. split.
  - simpl. by rewrite Hv, Hvs.
  - simpl. rewrite Hp, Hps, ?append_cons, ?append_nil_l.
    by rewrite ?append_assoc.
Qed.

Lemma match_removeSpaces (s : string) (n : PredicateListNode) :
  match_ s = Some n ->
  validConstraint (evalDenialConstraint n) = true /\
  removeSpaces s = constraintText (evalDenialConstraint n).
Proof.
  unfold match_. rewrite <- (removeSpaces_skipSpaces s).
  destruct (skipSpaces s) as [|c s1]; [done|].
  destruct (Ascii.eqb_spec c notSign) as [->|]; [|done].
  change (removeSpaces (String notSign s1))
    with (String notSign (removeSpaces s1)).
  rewrite <- (removeSpaces_skipSpaces s1).
  destruct (skipSpaces s1) as [|c2 s2]; [done|].
  destruct (Ascii.eqb_spec c2 "(") as [->|Hc2];
    [|by destruct c2 as [[] [] [] [] [] [] [] []]].
  change (removeSpaces (String "(" s2)) with (String "(" (removeSpaces s2)).
  cbv iota beta.
  destruct (parsePredicate s2) as [[p s3]|] eqn:Hp; [|done]. simpl.
  destruct (parseRest (String.length s3) s3) as [[ps s4]|] eqn:Hps;
    [|done].
  simpl.
  apply parsePredicate_removeSpaces in Hp as [Hv Hp].
  apply parseRest_removeSpaces in Hps as [Hvs Hps].
  rewrite <- (removeSpaces_skipSpaces s4) in Hps.
  destruct (skipSpaces s4) as [|c5 s5]; [done|].
  destruct (Ascii.eqb_spec c5 ")") as [->|Hc5];
    [|by destruct c5 as [[] [] [] [] [] [] [] []]].
  cbv iota beta.
  destruct (String.eqb_spec (skipSpaces s5) "") as [He|]; [|done].
  intros [= <-].
  assert (removeSpaces s5 = "") as Hs5.
  { by rewrite <- removeSpaces_skipSpaces, He. }
  change (removeSpaces (String ")" s5)) with (String ")" (removeSpaces s5))
    in Hps.
  rewrite Hs5 in Hps. split.
  - unfold validConstraint, evalDenialConstraint. simpl.
    rewrite evalPredicateList_map. simpl. by rewrite Hv, Hvs.
  - unfold constraintText, evalDenialConstraint, negation. simpl.
    rewrite evalPredicateList_map. simpl firstPredicate.
    simpl restPredicates.
    rewrite (join_restText (evalPredicate p)
               (map evalPredicate ps) ")").
    by rewrite Hp, Hps.
Qed.

End Soundness.

Section Anchoring.
Import Grammar DCParser.

Lemma spacedConstraintText_nil (dc : DenialConstraint) :
  spacedConstraintText "" dc = constraintText dc.
Proof.
  unfold spacedConstraintText, constraintText. rewrite !append_nil_l.
  change (")" +:+ "") with ")". by do 3 f_equal.
Qed.

Lemma parse_spacedConstraintText (w : string) (dc : DenialConstraint) :
  validConstraint dc = true -> isSpaces w = true ->
  parse (spacedConstraintText w dc) = Return dc.
Proof.
  destruct dc as [[|p ps]]; unfold validConstraint; simpl predicates;
    [done|].
  intros Hv Hw. unfold parse. rewrite (match_spaced w p ps Hw Hv).
  unfold evalDenialConstraint. rewrite evalPredicateList_map. simpl.
  rewrite evalPredicate_nodeOfPredicate. do 3 f_equal.
  clear Hv. induction ps as [|p' ps IH]; [done|]. simpl.
  by rewrite evalPredicate_nodeOfPredicate, IH.
Qed.

Lemma parse_constraintText (dc : DenialConstraint) :
  validConstraint dc = true -> parse (constraintText dc) = Return dc.
Proof.
  intros Hv. rewrite <- spacedConstraintText_nil.
  by apply parse_spacedConstraintText.
Qed.

Lemma parse_removeSpaces (text : string) (dc : DenialConstraint) :
  parse text = Return dc ->
  validConstraint dc = true /\ removeSpaces text = constraintText dc.
Proof.
  unfold parse. destruct (match_ text) as [n|] eqn:Hm; [|done].
  intros [= <-]. by apply match_removeSpaces.
Qed.

Lemma validConstraint_validRef (dc : DenialConstraint) (p : Predicate)
    (r : TupleReference) :
  validConstraint dc = true -> p ∈ predicates dc ->
  r = left p \/ r = right p -> validRef r = true.
Proof.
  unfold validConstraint. intros Hv Hp Hr.
  destruct (predicates dc) as [|p0 ps] eqn:Hps; [done|].
  rewrite forallb_forall in Hv. apply list_elem_of_In, Hv in Hp.
  apply andb_true_iff in Hp as [? ?]. by destruct Hr as [-> | ->].
Qed.

Lemma segments_validRef (r : TupleReference) :
  validRef r = true ->
  segments (refText r) =
    tupleId r :: segments (tableName r) ++ [columnName r].
Proof.
  intros (Hid & _ & _ & Hd)%validRef_shape.
  destruct (isTupleId_shape _ Hid) as (_ & _ & Hidd).
  by apply segments_refText.
Qed.

Lemma segments_spacedRefText (w1 w2 w3 w4 : string) (r : TupleReference) :
  validRef r = true -> isSpaces w1 = true -> isSpaces w4 = true ->
  segments (spacedRefText w1 w2 w3 w4 r) =
    (tupleId r +:+ w1) :: segments (w2 +:+ tableName r +:+ w3)
    ++ [w4 +:+ columnName r].
Proof.
  intros (Hid & _ & _ & Hd)%validRef_shape H1 H4.
  destruct (isTupleId_shape _ Hid) as (_ & _ & Hidd).
  unfold spacedRefText.
  replace (tupleId r +:+ w1 +:+ "." +:+ w2 +:+ tableName r +:+ w3 +:+ "."
           +:+ w4 +:+ columnName r)
    with ((tupleId r +:+ w1) +:+ "." +:+ (w2 +:+ tableName r +:+ w3) +:+
          "." +:+ (w4 +:+ columnName r)) by (by rewrite !append_assoc).
  apply segments_refText.
  - by rewrite hasDot_append, Hidd, (isSpaces_hasDot _ H1).
  - by rewrite hasDot_append, Hd, (isSpaces_hasDot _ H4).
Qed.

(** C2.  A tuple reference is split at the dot after its tuple
    identifier and at its last dot, whitespace around the two apart.
    Whatever text [parse] accepts, the text without its whitespace is the
    text of the constraint it returns, each reference written
    [tupleId.tableName.columnName] with a column name that has no dot: so
    the [tupleId] is the first dot-delimited segment of the reference,
    the [columnName] its last and the [tableName] all that is between
    the two, dots included.  Whatever [parseTupleRef] reads is a tuple
    identifier, a dot, a table name, a dot and a column name without a
    dot, with whitespace, or none, before and after the dots.  And every
    such reference is read so: [parseTupleRef] gives its three parts,
    and [parse] on the text of a constraint of such references, with any
    whitespace between its tokens, returns that constraint;
    [t1.WDC_planets.csv.Mass] has the table name [WDC_planets.csv] and
    the column name [Mass], with and without blanks around its dots. *)
Theorem parse_anchors_table_name (dc : DenialConstraint) (text : string) :
  (validConstraint dc = true ->
   parse (constraintText dc) = Return dc /\
   forall p r, p ∈ predicates dc -> r = left p \/ r = right p ->
     segments (refText r) =
       tupleId r :: segments (tableName r) ++ [columnName r])
  /\ (forall w,
        validConstraint dc = true -> isSpaces w = true ->
        parse (spacedConstraintText w dc) = Return dc)
  /\ (forall dc',
        parse text = Return dc' ->
        validConstraint dc' = true /\
        removeSpaces text = constraintText dc' /\
        forall p r, p ∈ predicates dc' -> r = left p \/ r = right p ->
          hasDot (tupleId r) = false /\ hasDot (columnName r) = false /\
          segments (refText r) =
            tupleId r :: segments (tableName r) ++ [columnName r])
  /\ (forall r w1 w2 w3 w4 w5 rest,
        validRef r = true ->
        isSpaces w1 = true -> isSpaces w2 = true -> isSpaces w3 = true ->
        isSpaces w4 = true -> isSpaces w5 = true -> ends rest = true ->
        parseTupleRef (spacedRefText w1 w2 w3 w4 r +:+ w5 +:+ rest)
        = Some (nodeOfRef r, rest) /\
        segments (spacedRefText w1 w2 w3 w4 r) =
          (tupleId r +:+ w1) :: segments (w2 +:+ tableName r +:+ w3)
          ++ [w4 +:+ columnName r] /\
        trim (tupleId r +:+ w1) = tupleId r /\
        trim (w2 +:+ tableName r +:+ w3) = tableName r /\
        trim (w4 +:+ columnName r) = columnName r)
  /\ (forall s n rest,
        parseTupleRef s = Some (n, rest) ->
        validRef (evalTupleRef n) = true /\
        exists w1 w2 w3 w4 w5,
          isSpaces w1 = true /\ isSpaces w2 = true /\ isSpaces w3 = true /\
          isSpaces w4 = true /\ isSpaces w5 = true /\
          s = spacedRefText w1 w2 w3 w4 (evalTupleRef n) +:+ w5
              +:+ rest)
  /\ (evalTupleRef <$> (fst <$> parseTupleRef "t1.WDC_planets.csv.Mass")
      = Some (ref "t1" "WDC_planets.csv" "Mass") /\
      evalTupleRef <$>
        (fst <$> parseTupleRef "t1 . WDC_planets.csv . Mass")
      = Some (ref "t1" "WDC_planets.csv" "Mass") /\
      parse (negation +:+ "(t0 .A .X==t1 .A .X)") =
        Return {| predicates :=
                    [ {| left := ref "t0" "A" "X"; operator := OpEq;
                         right := ref "t1" "A" "X" |} ] |}).
Proof.
  split_and!; [| | | | |done|done|done].
  - intros Hv. split; [by apply parse_constraintText|].
    intros p r Hp Hr. apply segments_validRef.
    by apply (validConstraint_validRef dc p r).
  - intros w Hv Hw. by apply parse_spacedConstraintText.
  - intros dc' [Hv Htext]%parse_removeSpaces. split_and!; [done..|].
    intros p r Hp Hr.
    pose proof (validConstraint_validRef dc' p r Hv Hp Hr) as Hvr.
    pose proof Hvr as (Hid & _ & _ & Hd)%validRef_shape.
    destruct (isTupleId_shape _ Hid) as (_ & _ & Hidd).
    split_and!; [done..|]. by apply segments_validRef.
  - intros r w1 w2 w3 w4 w5 rest Hr H1 H2 H3 H4 H5 Hrest.
    pose proof Hr as (Hid & [Ht Htn] & [Hc Hcn] & Hd)%validRef_shape.
    destruct (isTupleId_shape _ Hid) as (_ & Hidn & _).
    assert (forall x, x <> "" -> allChars isNameChar x = true ->
                      isQualifiedName x = true) as Hq.
    { intros x Hx Hxn. unfold isQualifiedName. rewrite Hxn.
      by apply String.eqb_neq in Hx as ->. }
    split_and!.
    + by apply parseTupleRef_spaced.
    + by apply segments_spacedRefText.
    + apply (trim_name "" (tupleId r) w1); [|done..].
      apply Hq; [|done]. by destruct (tupleId r).
    + apply trim_name; [|done..]. by apply Hq.
    + rewrite <- (append_nil_r (columnName r)) at 1.
      apply trim_name; [|done..]. by apply Hq.
  - intros s n rest (Hv & _ & Hex)%parseTupleRef_Some. by split.
Qed.

(** The planets constraint, whose table name has a dot in it, comes back
    from its text with a blank between every two tokens. *)
Lemma parse_anchors_table_name_planets :
  parse (spacedConstraintText " " planets) = Return planets.
Proof.
  apply (proj1 (proj2 (parse_anchors_table_name planets ""))).
  - reflexivity.
  - reflexivity.
Defined.

End Anchoring.

(** ** The properties at concrete constraints *)

Section Instances.
Import DCTranspiler DCParser.

(** [validate] on the constraint over the tables A and B, and on the
    airport constraint. *)
Lemma validate_fails_iff_not_single_table_instances :
  (exists e, validate twoTables = Throw e /\ WellFormednessError e)
  /\ validate airport = Return true.
Proof.
  split.
  - apply (proj1 (validate_fails_iff_not_single_table twoTables)).
    right. vm_compute. lia.
  - apply (proj1 (proj2 (proj2 (validate_fails_iff_not_single_table
                                  airport)))).
    intros [Hnil|Hsize]; [done|]. vm_compute in Hsize. lia.
Defined.

(** The aliases of the constraint over t2, t10, t1 and t0. *)
Lemma aliases_sorted_as_strings_four :
  StronglySorted precedes (extractTupleAliases fourAliases)
  /\ extractTupleAliases fourAliases = ["t0"; "t1"; "t10"; "t2"].
Proof.
  split.
  - apply (aliases_sorted_as_strings noOptions fourAliases).
  - apply (proj1 (proj2 (proj2 (proj2
             (aliases_sorted_as_strings noOptions fourAliases))))).
    intros alias. unfold mentions. simpl.
    rewrite !elem_of_cons, !elem_of_nil. tauto.
Defined.

(** The conditions of the airport constraint, and the end of its
    one-line statement. *)
Lemma where_conditions_follow_predicates_airport :
  buildWhereConditions airport =
    ["t0.Country = t1.Country"; "t0.Timezone != t1.Timezone"]
  /\ exists before,
       "SELECT t0.Country, t0.Timezone, t1.Country, t1.Timezone FROM airport t0, airport t1 WHERE t0.Country = t1.Country AND t0.Timezone != t1.Timezone;"
       = before +:+
         "WHERE t0.Country = t1.Country AND t0.Timezone != t1.Timezone;".
Proof.
  split.
  - exact (proj1 (where_conditions_follow_predicates noOptions airport)).
  - apply (where_conditions_follow_predicates (new compact) airport).
    reflexivity.
Defined.

(** The table names of the examples in the FROM clause. *)
Lemma from_clause_table_name_planets :
  cleanTableName "WDC_planets.csv" = "WDC_planets"
  /\ cleanTableName "my-table.csv" = DQUOTE +:+ "my-table" +:+ DQUOTE.
Proof.
  split.
  - apply (proj1 (from_clause_table_name noOptions airport
                    "WDC_planets.csv" []) "WDC_planets"); [by left|].
    intros Hs%hasDotOrHyphen_spec. by vm_compute in Hs.
  - apply (proj1 (from_clause_table_name noOptions airport
                    "my-table.csv" []) "my-table"); [by left|].
    apply hasDotOrHyphen_spec. by vm_compute.
Defined.

(** The SELECT list of the airport constraint over t0 and t1. *)
Lemma select_list_alias_major_airport :
  buildSelectColumns airport ["t0"; "t1"] =
    ["t0.Country"; "t0.Timezone"; "t1.Country"; "t1.Timezone"].
Proof.
  exact (proj1 (proj2 (proj2 (proj2 (proj2
           (select_list_alias_major noOptions airport ["t0"; "t1"])))))
           "t0" "t1" [] eq_refl).
Defined.

(** [transpile] on the constraint without predicates. *)
Lemma transpile_reads_first_predicate_empty :
  transpile (new noOptions) withoutPredicates = Throw TypeError.
Proof.
  apply (transpile_reads_first_predicate (new noOptions)
           withoutPredicates).
  reflexivity.
Defined.

End Instances.

(** * Further properties of the code *)

(** ** What parse returns, and what validate lets through *)

Section Pipeline.
Import DCTranspiler DCParser.

Lemma mentions_elem_of (field : TupleReference -> string)
    (dc : DenialConstraint) (x : string) :
  x ∈ mentions field dc <->
  exists p, p ∈ predicates dc /\ (x = field (left p) \/ x = field (right p)).
Proof.
  unfold mentions. rewrite list_elem_of_In, in_flat_map. split.
  - intros (p & Hp & Hx). exists p. rewrite list_elem_of_In.
    split; [done|]. simpl in Hx. destruct Hx as [<-|[<-|[]]]; auto.
  - intros (p & Hp & Hx). exists p. rewrite <- list_elem_of_In.
    split; [done|]. simpl. destruct Hx as [->| ->]; auto.
Qed.

Lemma evalPredicateList_cons (n : Grammar.PredicateListNode) :
  exists p ps, evalPredicateList n = p :: ps /\
               length ps = length (Grammar.restPredicates n).
Proof.
  rewrite evalPredicateList_map. eexists _, _. split; [done|].
  apply length_map.
Qed.

Lemma parse_cons (dcString : string) (dc : DenialConstraint) :
  parse dcString = Return dc -> exists p ps, predicates dc = p :: ps.
Proof.
  unfold parse. destruct (Grammar.match_ dcString) as [n|]; [|done].
  intros [= <-]. simpl.
  destruct (evalPredicateList_cons n) as (p & ps & Hps & _). eauto.
Qed.

(** X1.  The semantic actions of [eval] give one predicate for the first
    predicate node and one for each of the others, in their order, with
    the strings and the operator of the nodes: what [parse] returns has
    at least one predicate, and [validate] never throws its first error
    on it. *)
Theorem parse_returns_predicates_in_order (dcString : string)
    (n : Grammar.PredicateListNode) :
  predicates (evalDenialConstraint n) =
    evalPredicate (Grammar.firstPredicate n) ::
    map evalPredicate (Grammar.restPredicates n)
  /\ length (predicates (evalDenialConstraint n)) =
       S (length (Grammar.restPredicates n))
  /\ (forall i node,
        (Grammar.firstPredicate n :: Grammar.restPredicates n) !! i
        = Some node ->
        exists p,
          predicates (evalDenialConstraint n) !! i = Some p /\
          tupleId (left p) = Grammar.identifier (Grammar.leftRef node) /\
          tableName (left p) = Grammar.tableNameNode (Grammar.leftRef node) /\
          columnName (left p) =
            Grammar.columnNameNode (Grammar.leftRef node) /\
          operator p = Grammar.operatorNode node /\
          tupleId (right p) = Grammar.identifier (Grammar.rightRef node) /\
          tableName (right p) =
            Grammar.tableNameNode (Grammar.rightRef node) /\
          columnName (right p) =
            Grammar.columnNameNode (Grammar.rightRef node))
  /\ (forall dc,
        parse dcString = Return dc ->
        predicates dc <> [] /\ validate dc <> Throw (Error noPredicate)).
Proof.
  assert (predicates (evalDenialConstraint n) =
          map evalPredicate
              (Grammar.firstPredicate n :: Grammar.restPredicates n))
    as Hmap by apply evalPredicateList_map.
  split_and!.
  - done.
  - rewrite Hmap. simpl. by rewrite length_map.
  - intros i node Hi. rewrite Hmap, list_lookup_fmap, Hi. simpl.
    eexists. split; [done|]. done.
  - intros dc (p & ps & Hps)%parse_cons. split; [by rewrite Hps|].
    rewrite validate_cons by (by rewrite Hps).
    by destruct (decide (size (tableNames dc) = 1)).
Qed.

(** X2.  A constraint [validate] returns on can be transpiled: it has a first
    predicate, so the read of [predicates[0]] does not throw. *)
Theorem validate_guards_transpile (this : TranspilerOptions)
    (dc : DenialConstraint) :
  validate dc = Return true ->
  exists q, buildSQLQuery this dc = Return q /\
            transpile this dc = Return (formatSQL this q dc).
Proof.
  intros Hv. destruct (predicates dc) as [|p ps] eqn:Hps.
  - by rewrite (validate_nil dc Hps) in Hv.
  - by apply (transpile_cons this dc p ps).
Qed.

Lemma validate_guards_transpile_airport :
  exists q, buildSQLQuery (new compact) airport = Return q /\
            transpile (new compact) airport =
              Return (formatSQL (new compact) q airport).
Proof. apply validate_guards_transpile. reflexivity. Defined.

End Pipeline.

(** ** index.ts: what transpileDC returns and throws *)

Section Index.
Import DCTranspiler DCParser.

(** X3.  [transpileDC] returns a text exactly when [parse] returns a
    constraint and [validate] returns on it; what it throws is the error
    of [parse] or the single-table error of [validate], never the
    [TypeError] of [transpile] and never the no-predicate error. *)
Theorem transpileDC_returns_iff_parsed_and_valid (dcString : string)
    (options : option TranspilerOptions) :
  ((exists text, transpileDC dcString options = Return text) <->
   (exists dc, parse dcString = Return dc /\ validate dc = Return true))
  /\ (forall e,
        transpileDC dcString options = Throw e ->
        (e = ParseError /\ parse dcString = Throw ParseError) \/
        (e = Error severalTables /\
         exists dc, parse dcString = Return dc /\
                    validate dc = Throw (Error severalTables)))
  /\ (forall dc text,
        parse dcString = Return dc ->
        transpileDC dcString options = Return text ->
        transpile (new (default noOptions options)) dc = Return text).
Proof.
  unfold transpileDC.
  destruct (parse dcString) as [dc|e] eqn:Hparse; simpl.
  - destruct (parse_cons dcString dc Hparse) as (p & ps & Hps).
    assert (predicates dc <> []) as Hne by (by rewrite Hps).
    pose proof (validate_cons dc Hne) as Hv.
    destruct (decide (size (tableNames dc) = 1)); rewrite Hv; simpl.
    + destruct (transpile_cons (new (default noOptions options)) dc p ps
                  Hps) as (q & _ & Ht).
      rewrite Ht. split_and!.
      * split; [|by eauto]. intros _. by exists dc.
      * done.
      * intros dc0 text [= <-] [= <-]. exact Ht.
    + split_and!.
      * split; [by intros [? ?]|]. intros (dc0 & [= <-] & Hv').
        by rewrite Hv in Hv'.
      * intros e [= <-]. right. split; [done|]. by exists dc.
      * done.
  - split_and!.
    + split; [by intros [? ?]|]. by intros (? & ? & ?).
    + intros e' [= <-]. left. unfold parse in Hparse.
      destruct (Grammar.match_ dcString); [done|].
      injection Hparse as <-. done.
    + done.
Qed.

End Index.

(** ** One table *)

Section OneTable.
Import DCTranspiler DCParser.

(** X4.  [validate] returns exactly on the constraints all of whose
    references, left and right, have the table name [extractTableName]
    takes for the FROM clause. *)
Theorem validate_iff_all_tables_extracted (dc : DenialConstraint) :
  validate dc = Return true <->
  exists t, extractTableName dc = Return t /\
            forall p, p ∈ predicates dc ->
                      tableName (left p) = t /\ tableName (right p) = t.
Proof.
  split.
  - intros Hv. destruct (predicates dc) as [|p0 ps] eqn:Hps.
    { by rewrite (validate_nil dc Hps) in Hv. }
    assert (predicates dc <> []) as Hne by (by rewrite Hps).
    rewrite (validate_cons dc Hne) in Hv.
    destruct (decide (size (tableNames dc) = 1)) as [Hone|]; [|done].
    exists (tableName (left p0)). split.
    { unfold extractTableName. by rewrite Hps. }
    assert (forall x, x ∈ mentions tableName dc ->
                      x = tableName (left p0)) as Hall.
    { intros x Hx.
      apply (size_singleton_inv (tableNames dc)); [done|..];
        unfold tableNames; apply elem_of_list_to_set; [done|].
      apply mentions_elem_of. exists p0. rewrite Hps.
      split; [by left|by left]. }
    rewrite <- Hps. intros p Hp.
    split; apply Hall, mentions_elem_of; exists p; auto.
  - intros (t & Ht & Hall).
    destruct (predicates dc) as [|p0 ps] eqn:Hps.
    { unfold extractTableName in Ht. by rewrite Hps in Ht. }
    assert (predicates dc <> []) as Hne by (by rewrite Hps).
    rewrite (validate_cons dc Hne).
    assert (tableNames dc = {[t]}) as ->; [|by rewrite size_singleton].
    apply set_eq. intros x. unfold tableNames.
    rewrite elem_of_list_to_set, elem_of_singleton, mentions_elem_of.
    rewrite Hps. split.
    + intros (p & Hp & [-> | ->]); by apply Hall.
    + intros ->. exists p0. split; [by left|].
      left. symmetry. apply Hall. by left.
Qed.

Lemma foldl_pairs_ext (f g : Predicate -> string)
    (ps ps' : list Predicate) :
  Forall2 (fun p p' => f p = f p' /\ g p = g p') ps ps' ->
  flat_map (fun p => [f p; g p]) ps = flat_map (fun p => [f p; g p]) ps'.
Proof.
  induction 1 as [|p p' ps ps' [Hf Hg] _ IH]; simpl; [done|].
  by rewrite Hf, Hg, IH.
Qed.

Lemma map_agree (f : Predicate -> string) (ps ps' : list Predicate) :
  Forall2 agreeOffTables ps ps' ->
  (forall p p', agreeOffTables p p' -> f p = f p') ->
  map f ps = map f ps'.
Proof.
  intros Hagree Hf. induction Hagree as [|p p' ps ps' Hp _ IH]; simpl;
    [done|].
  by rewrite IH, (Hf p p' Hp).
Qed.

(** X5.  [transpile] reads one table name, that of the left reference of the
    first predicate: two constraints that agree on it and whose
    predicates differ in their table names only give the same text. *)
Theorem transpile_reads_one_table_name (this : TranspilerOptions)
    (dc dc' : DenialConstraint) :
  Forall2 agreeOffTables (predicates dc) (predicates dc') ->
  extractTableName dc = extractTableName dc' ->
  transpile this dc = transpile this dc'.
Proof.
  intros Hagree Ht.
  assert (mentions tupleId dc = mentions tupleId dc') as Hids.
  { apply (foldl_pairs_ext (fun p => tupleId (left p))
                           (fun p => tupleId (right p))).
    eapply Forall2_impl; [done|]. intros p p' (? & ? & ? & ? & ?). done. }
  assert (mentions columnName dc = mentions columnName dc') as Hcols.
  { apply (foldl_pairs_ext (fun p => columnName (left p))
                           (fun p => columnName (right p))).
    eapply Forall2_impl; [done|]. intros p p' (? & ? & ? & ? & ?). done. }
  assert (map condition (predicates dc) = map condition (predicates dc'))
    as Hconds.
  { apply (map_agree _ _ _ Hagree). intros p p' (H1 & H2 & H3 & H4 & H5).
    unfold condition. by rewrite H1, H2, H3, H4, H5. }
  assert (map commentPredicate (predicates dc) =
          map commentPredicate (predicates dc')) as Hcomm.
  { apply (map_agree _ _ _ Hagree). intros p p' (H1 & H2 & H3 & H4 & H5).
    unfold commentPredicate. by rewrite H1, H2, H3, H4, H5. }
  assert (extractTupleAliases dc = extractTupleAliases dc') as Hal.
  { by rewrite !extractTupleAliases_sort, Hids. }
  unfold transpile, buildSQLQuery. rewrite <- Ht.
  destruct (extractTableName dc) as [t|e]; [|done]. simpl.
  rewrite !buildSelectColumns_selectList, !buildWhereConditions_map.
  unfold columns. rewrite <- Hal, <- Hcols, <- Hconds. f_equal.
  rewrite !formatSQL_text. unfold commentBlock. by rewrite Hcomm.
Qed.

(** The constraint over the tables A and B gives the text of the one
    over A alone. *)
Lemma transpile_reads_one_table_name_twoTables :
  transpile (new noOptions) twoTables =
  transpile (new noOptions)
            {| predicates :=
                 [ {| left := ref "t0" "A" "X"; operator := OpEq;
                      right := ref "t1" "A" "X" |} ] |}.
Proof.
  apply transpile_reads_one_table_name; [|reflexivity].
  simpl. repeat constructor.
Defined.

(** X6.  The aliases are those of the set of tuple identifiers: two
    constraints that mention the same identifiers, in whatever order
    and however often, have the same aliases in the same order. *)
Theorem aliases_of_the_set_of_identifiers (dc dc' : DenialConstraint) :
  (forall a, a ∈ mentions tupleId dc <-> a ∈ mentions tupleId dc') ->
  extractTupleAliases dc = extractTupleAliases dc'.
Proof.
  intros Hsame. rewrite !extractTupleAliases_sort.
  apply sorted_members_unique.
  - apply sort_StronglySorted.
  - apply sort_NoDup, firstAppearances_NoDup.
  - apply sort_StronglySorted.
  - apply sort_NoDup, firstAppearances_NoDup.
  - intros x. rewrite !sort_elem_of, !firstAppearances_elem_of.
    rewrite Hsame. done.
Qed.

(** The airport constraint with its predicates, and the references of
    each, the other way round. *)
Lemma aliases_of_the_set_of_identifiers_airport :
  extractTupleAliases airport =
  extractTupleAliases
    {| predicates :=
         [ {| left := ref "t1" "airport" "Timezone"; operator := OpNeq;
              right := ref "t0" "airport" "Timezone" |};
           {| left := ref "t1" "airport" "Country"; operator := OpEq;
              right := ref "t0" "airport" "Country" |} ] |}.
Proof.
  apply aliases_of_the_set_of_identifiers.
  intros a. unfold mentions. simpl.
  rewrite !elem_of_cons, !elem_of_nil. tauto.
Defined.

End OneTable.

(** ** The options *)

Section Options.
Import DCTranspiler.

(** X7.  The text [formatSQL] returns for a transpiler made with [new]: the
    comment block is there only for [includeComments: true]; the
    statement is on several lines when [formatOutput] is left out or is
    [true], and on one line when it is [false] and also when the
    property is there holding [undefined], which takes the place of the
    default.  Making a transpiler of the options of a transpiler changes
    nothing. *)
Theorem options_after_new (options : TranspilerOptions) (q : SQLQuery)
    (dc : DenialConstraint) :
  formatSQL (new options) q dc =
    (match includeComments options with
     | Flag true => commentBlock dc
     | Flag false | Missing | Undefined => ""
     end) +:+
    (match formatOutput options with
     | Missing | Flag true => formattedStatement q
     | Flag false | Undefined => compactStatement q
     end)
  /\ truthy (selectAllColumns (new options)) =
       (match selectAllColumns options with
        | Flag true => true
        | Flag false | Missing | Undefined => false
        end)
  /\ new (new options) = new options.
Proof.
  rewrite formatSQL_text.
  destruct options as [[| |[]] [| |[]] [| |[]]]; done.
Qed.

(** X8.  The comment block is put before the text, which it leaves as it is
    without the block. *)
Theorem comment_block_is_a_prefix (this this' : TranspilerOptions)
    (q : SQLQuery) (dc : DenialConstraint) :
  truthy (includeComments this) = true ->
  truthy (includeComments this') = false ->
  truthy (formatOutput this) = truthy (formatOutput this') ->
  formatSQL this q dc = commentBlock dc +:+ formatSQL this' q dc.
Proof.
  intros Hc Hc' Hf. by rewrite !formatSQL_text, Hc, Hc', Hf.
Qed.

Lemma comment_block_is_a_prefix_airport :
  formatSQL (new commented) {| selectColumns := ["t0.*"; "t1.*"];
                               fromClause := "airport t0, airport t1";
                               whereConditions := [] |} airport =
  commentBlock airport +:+
  formatSQL (new noOptions) {| selectColumns := ["t0.*"; "t1.*"];
                               fromClause := "airport t0, airport t1";
                               whereConditions := [] |} airport.
Proof. by apply comment_block_is_a_prefix. Defined.

End Options.

(** ** The size of the SELECT list, and its members *)

Section SelectList.
Import DCTranspiler.

Lemma selectList_length (aliases cols : list string) :
  length (selectList aliases cols) = length aliases * length cols.
Proof.
  induction aliases as [|a aliases IH]; simpl; [done|].
  by rewrite length_app, length_map, IH.
Qed.

Lemma selectList_elem_of (aliases cols : list string) (x : string) :
  x ∈ selectList aliases cols <->
  exists a c, a ∈ aliases /\ c ∈ cols /\ x = a +:+ "." +:+ c.
Proof.
  induction aliases as [|a aliases IH]; simpl.
  - rewrite elem_of_nil. split; [done|].
    intros (a & c & Ha & _). by apply elem_of_nil in Ha.
  - rewrite elem_of_app, IH, list_elem_of_fmap. split.
    + intros [(c & -> & Hc)|(a' & c & Ha' & Hc & ->)].
      * exists a, c. split; [by left|done].
      * exists a', c. split; [by right|done].
    + intros (a' & c & [->|Ha']%elem_of_cons & Hc & ->).
      * left. by exists c.
      * right. by exists a', c.
Qed.

Lemma extractTupleAliases_length (dc : DenialConstraint) :
  length (extractTupleAliases dc) =
  size (list_to_set (C := gset string) (mentions tupleId dc)).
Proof.
  rewrite extractTupleAliases_sort. unfold sort.
  rewrite (Permutation_length (merge_sort_Permutation _ _)).
  apply firstAppearances_length.
Qed.

(** X9.  The SELECT list has one entry per distinct tuple identifier with
    [selectAllColumns], and one per distinct tuple identifier and
    distinct column name without. *)
Theorem select_list_size (this : TranspilerOptions) (dc : DenialConstraint)
    (q : SQLQuery) :
  buildSQLQuery this dc = Return q ->
  length (selectColumns q) =
    if truthy (selectAllColumns this)
    then size (list_to_set (C := gset string) (mentions tupleId dc))
    else size (list_to_set (C := gset string) (mentions tupleId dc)) *
         size (list_to_set (C := gset string) (mentions columnName dc)).
Proof.
  intros Hq.
  destruct (buildSQLQuery_Return this dc q Hq) as (p & ps & Hps).
  rewrite (buildSQLQuery_cons this dc p ps Hps) in Hq.
  injection Hq as <-. simpl.
  destruct (truthy (selectAllColumns this)).
  - by rewrite length_map, extractTupleAliases_length.
  - rewrite buildSelectColumns_selectList, selectList_length.
    rewrite extractTupleAliases_length. unfold columns.
    by rewrite firstAppearances_length.
Qed.

(** The airport constraint: two identifiers, two column names. *)
Lemma select_list_size_airport :
  length ["t0.Country"; "t0.Timezone"; "t1.Country"; "t1.Timezone"] =
  size (list_to_set (C := gset string) (mentions tupleId airport)) *
  size (list_to_set (C := gset string) (mentions columnName airport)).
Proof.
  exact (select_list_size (new compact) airport
           {| selectColumns :=
                ["t0.Country"; "t0.Timezone"; "t1.Country"; "t1.Timezone"];
              fromClause := "airport t0, airport t1";
              whereConditions :=
                ["t0.Country = t1.Country"; "t0.Timezone != t1.Timezone"] |}
           eq_refl).
Defined.

Lemma dot_split_inj (a a' c c' : string) :
  hasDot a = false -> hasDot a' = false ->
  a +:+ "." +:+ c = a' +:+ "." +:+ c' -> a = a' /\ c = c'.
Proof.
  revert a'. induction a as [|x a IH]; intros [|x' a'];
    repeat (rewrite append_nil_l || rewrite append_cons); simpl.
  - intros _ _ [= ->]. done.
  - intros _ [Hx _]%orb_false_iff [= <- _]. done.
  - intros [Hx _]%orb_false_iff _ [= -> _]. done.
  - intros [_ Ha]%orb_false_iff [_ Ha']%orb_false_iff [= -> Heq].
    by destruct (IH a' Ha Ha' Heq) as [-> ->].
Qed.

Lemma append_inj_r (s1 s2 t : string) : s1 +:+ t = s2 +:+ t -> s1 = s2.
Proof.
  revert s2. induction s1 as [|c s1 IH]; intros [|c' s2];
    rewrite ?append_nil_l, ?append_cons.
  - done.
  - intros H. apply (f_equal String.length) in H. simpl in H.
    rewrite length_append in H. lia.
  - intros H. apply (f_equal String.length) in H. simpl in H.
    rewrite length_append in H. lia.
  - intros [= -> H]. by rewrite (IH s2 H).
Qed.

Lemma selectList_NoDup (aliases cols : list string) :
  NoDup aliases -> NoDup cols ->
  (forall a, a ∈ aliases -> hasDot a = false) ->
  NoDup (selectList aliases cols).
Proof.
  intros Ha Hc Hdot. induction Ha as [|a aliases Hout Ha IH]; simpl.
  - constructor.
  - apply NoDup_app. split_and!.
    + apply NoDup_fmap_2_strong; [|done]. intros c c' _ _ Heq.
      by do 2 apply String.app_inj in Heq.
    + intros x (c & -> & Hc')%list_elem_of_fmap
        (a' & c' & Ha' & _ & Heq)%selectList_elem_of.
      apply dot_split_inj in Heq as [-> _].
      * done.
      * apply Hdot. by left.
      * apply Hdot. by right.
    + apply IH. intros a' Ha'. apply Hdot. by right.
Qed.

(** X10.  When no tuple identifier has a dot in it, as none the grammar
    accepts has, the SELECT list names nothing twice. *)
Theorem select_list_names_nothing_twice (this : TranspilerOptions)
    (dc : DenialConstraint) (q : SQLQuery) :
  (forall a, a ∈ mentions tupleId dc -> hasDot a = false) ->
  buildSQLQuery this dc = Return q ->
  NoDup (selectColumns q).
Proof.
  intros Hdot Hq.
  destruct (buildSQLQuery_Return this dc q Hq) as (p & ps & Hps).
  rewrite (buildSQLQuery_cons this dc p ps Hps) in Hq.
  injection Hq as <-. simpl.
  assert (NoDup (extractTupleAliases dc)) as Hnd.
  { rewrite extractTupleAliases_sort.
    apply sort_NoDup, firstAppearances_NoDup. }
  destruct (truthy (selectAllColumns this)).
  - apply NoDup_fmap_2_strong; [|done]. intros a a' _ _ Heq.
    by apply append_inj_r in Heq.
  - rewrite buildSelectColumns_selectList.
    apply selectList_NoDup; [done|apply firstAppearances_NoDup|].
    intros a Ha. apply Hdot.
    rewrite extractTupleAliases_sort, sort_elem_of in Ha.
    by apply firstAppearances_elem_of in Ha as [? _].
Qed.

Lemma select_list_names_nothing_twice_airport :
  NoDup ["t0.Country"; "t0.Timezone"; "t1.Country"; "t1.Timezone"].
Proof.
  apply (select_list_names_nothing_twice (new compact) airport
           {| selectColumns :=
                ["t0.Country"; "t0.Timezone"; "t1.Country"; "t1.Timezone"];
              fromClause := "airport t0, airport t1";
              whereConditions :=
                ["t0.Country = t1.Country"; "t0.Timezone != t1.Timezone"] |});
    [|reflexivity].
  intros a. unfold mentions. simpl.
  rewrite !elem_of_cons, elem_of_nil.
  intros [->|[->|[->|[->|[]]]]]; reflexivity.
Defined.

End SelectList.

(** ** Table names at the edges *)

Section TableNames.
Import DCTranspiler.

Lemma hasDotOrHyphen_append (s1 s2 : string) :
  hasDotOrHyphen (s1 +:+ s2) = hasDotOrHyphen s1 || hasDotOrHyphen s2.
Proof.
  induction s1 as [|x s1 IH]; [done|].
  rewrite append_cons. simpl. by rewrite IH, !orb_assoc.
Qed.

(** X11.  [cleanTableName] takes one [.csv] off, not two: of a name with the
    suffix twice it leaves the name with the suffix once, and puts it
    between double quotes for the dot it still has. *)
Theorem cleanTableName_strips_once (base : string) :
  cleanTableName (base +:+ ".csv.csv") =
    DQUOTE +:+ base +:+ ".csv" +:+ DQUOTE.
Proof.
  assert (base +:+ ".csv.csv" = (base +:+ ".csv") +:+ ".csv") as Heq
    by (by rewrite append_assoc).
  rewrite (cleanTableName_of_base (base +:+ ".csv.csv") (base +:+ ".csv")).
  - assert (hasDotOrHyphen (base +:+ ".csv") = true) as ->;
      [|by rewrite append_assoc].
    by rewrite hasDotOrHyphen_append, orb_true_r.
  - left. split; [|done]. apply endsWith_spec. by eexists.
Qed.


End TableNames.

(** ** One line *)

Section OneLine.
Import DCTranspiler.

Lemma hasChar_append (c : ascii) (s1 s2 : string) :
  hasChar c (s1 +:+ s2) = hasChar c s1 || hasChar c s2.
Proof.
  induction s1 as [|x s1 IH]; [done|].
  rewrite append_cons. simpl. by rewrite IH, orb_assoc.
Qed.

Lemma hasChar_join (c : ascii) (sep : string) (l : list string) :
  hasChar c sep = false -> (forall x, x ∈ l -> hasChar c x = false) ->
  hasChar c (join sep l) = false.
Proof.
  intros Hsep Hl. induction l as [|x l IH]; [done|].
  assert (hasChar c x = false) as Hx by (apply Hl; by left).
  assert (hasChar c (join sep l) = false) as Hrest.
  { apply IH. intros y Hy. apply Hl. by right. }
  destruct l as [|y l]; [done|].
  change (join sep (x :: y :: l)) with (x +:+ sep +:+ join sep (y :: l)).
  by rewrite !hasChar_append, Hx, Hsep, Hrest.
Qed.

Lemma cleanTableName_lineFeed (t : string) :
  hasChar lineFeed t = false -> hasChar lineFeed (cleanTableName t) = false.
Proof.
  intros Ht.
  assert (exists base, hasChar lineFeed base = false /\
            cleanTableName t =
              if hasDotOrHyphen base then DQUOTE +:+ base +:+ DQUOTE
              else base) as (base & Hb & ->).
  { destruct (endsWith t ".csv") eqn:He.
    - destruct (proj1 (endsWith_spec t ".csv") He) as [base ->].
      exists base. rewrite hasChar_append in Ht.
      apply orb_false_iff in Ht as [Hb _]. split; [done|].
      apply cleanTableName_of_base. left. by rewrite He.
    - exists t. split; [done|]. apply cleanTableName_of_base. by right. }
  destruct (hasDotOrHyphen base); [|done].
  by rewrite !hasChar_append, Hb.
Qed.

Lemma sqlOperator_lineFeed (op : ComparisonOperator) :
  hasChar lineFeed (sqlOperator op) = false.
Proof. by destruct op. Qed.

(** X13.  With [formatOutput] and [includeComments] both off, the text is one
    line: when the tuple identifiers, the column names and the table name
    of a constraint have no line feed in them, as none the grammar
    accepts has, the text [transpile] returns has none. *)
Theorem compact_text_is_one_line (this : TranspilerOptions)
    (dc : DenialConstraint) (text : string) :
  truthy (formatOutput this) = false ->
  truthy (includeComments this) = false ->
  (forall x, x ∈ mentions tupleId dc \/ x ∈ mentions columnName dc \/
             x ∈ mentions tableName dc ->
             hasChar lineFeed x = false) ->
  transpile this dc = Return text ->
  hasChar lineFeed text = false.
Proof.
  intros Hf Hc Hnames Ht.
  destruct (predicates dc) as [|p ps] eqn:Hps.
  { unfold transpile in Ht. by rewrite buildSQLQuery_nil in Ht. }
  unfold transpile in Ht.
  rewrite (buildSQLQuery_cons this dc p ps Hps) in Ht. simpl in Ht.
  injection Ht as <-. rewrite formatSQL_text, Hf, Hc, append_nil_l.
  unfold compactStatement. simpl.
  assert (forall a, a ∈ extractTupleAliases dc ->
                    hasChar lineFeed a = false) as Hal.
  { intros a Ha. apply Hnames. left.
    rewrite extractTupleAliases_sort, sort_elem_of in Ha.
    by apply firstAppearances_elem_of in Ha as [? _]. }
  assert (hasChar lineFeed
            (join ", " (if truthy (selectAllColumns this)
                        then map (fun alias => alias +:+ ".*")
                                 (extractTupleAliases dc)
                        else buildSelectColumns dc (extractTupleAliases dc)))
          = false) as Hsel.
  { apply hasChar_join; [done|]. intros x Hx.
    destruct (truthy (selectAllColumns this)).
    - apply list_elem_of_fmap in Hx as (a & -> & Ha).
      by rewrite hasChar_append, (Hal a Ha).
    - rewrite buildSelectColumns_selectList in Hx.
      apply selectList_elem_of in Hx as (a & c & Ha & Hcol & ->).
      rewrite !hasChar_append, (Hal a Ha). simpl.
      apply Hnames. right. left.
      by apply firstAppearances_elem_of in Hcol as [? _]. }
  assert (hasChar lineFeed
            (buildFromClause (tableName (left p)) (extractTupleAliases dc))
          = false) as Hfrom.
  { apply hasChar_join; [done|]. intros x (a & -> & Ha)%list_elem_of_fmap.
    rewrite !hasChar_append, (Hal a Ha), cleanTableName_lineFeed; [done|].
    apply Hnames. right. right. apply mentions_elem_of.
    exists p. rewrite Hps. split; [by left|by left]. }
  assert (hasChar lineFeed (join " AND " (buildWhereConditions dc)) = false)
    as Hwhere.
  { apply hasChar_join; [done|]. intros x Hx.
    rewrite buildWhereConditions_map in Hx.
    apply list_elem_of_fmap in Hx as (p' & -> & Hp').
    unfold condition.
    assert (forall r, r = left p' \/ r = right p' ->
              hasChar lineFeed (tupleId r) = false /\
              hasChar lineFeed (columnName r) = false) as Hr.
    { intros r Hr.
      split; apply Hnames; [left|right; left]; apply mentions_elem_of;
        exists p'; (split; [done|]); destruct Hr as [-> | ->]; auto. }
    destruct (Hr (left p') (or_introl eq_refl)) as [Hl1 Hl2].
    destruct (Hr (right p') (or_intror eq_refl)) as [Hr1 Hr2].
    by rewrite !hasChar_append, sqlOperator_lineFeed, Hl1, Hl2, Hr1, Hr2. }
  by rewrite !hasChar_append, Hsel, Hfrom, Hwhere.
Qed.

Lemma compact_text_is_one_line_airport :
  hasChar lineFeed
    "SELECT t0.Country, t0.Timezone, t1.Country, t1.Timezone FROM airport t0, airport t1 WHERE t0.Country = t1.Country AND t0.Timezone != t1.Timezone;"
  = false.
Proof.
  apply (compact_text_is_one_line (new compact) airport);
    [reflexivity|reflexivity| |reflexivity].
  intros x. unfold mentions. simpl.
  rewrite !elem_of_cons, !elem_of_nil.
  intros [H|[H|H]]; repeat (destruct H as [->|H]; [reflexivity|]);
    destruct H.
Defined.

End OneLine.
